(** * Match units of the behavioral model: exact, LPM and ternary tables

    A shallow embedding of [modules/bm_sim/src/match_units.cpp]: the handle
    codec macros, the shared base class [MatchUnitAbstract] and its three
    subclasses [MatchUnitExact], [MatchUnitLPM] and [MatchUnitTernary],
    followed by the properties of the control-plane and lookup operations.

    Conventions.
    - Unsigned machine integers ([uint32_t], [uint64_t], [size_t], handles)
      are [N]; an operation that can overflow has its wrap-around written
      out ([wrap32], [wrap64]). Signed [int]s (priority, prefix length) are
      [Z].
    - A byte is an [N] below 256 and a [ByteContainer] is a list of bytes.
    - The template parameter [V] is a type with a default-constructed
      value ([Inhabited V]).
    - The build modelled is the one with assertions enabled: a failed
      [assert] is the outcome [AssertionFailed].
    - [std::vector::operator[]] out of range is undefined behaviour in the
      source. The model reads the default-constructed entry there and
      ignores the write; [wf_run] and [wf_in_range] show that no state
      reached from a new unit indexes [entries] out of range. *)

From Stdlib Require Import NArith ZArith Lia.
From stdpp Require Import base tactics option list numbers gmap.

Local Open Scope N_scope.
#[local] Set Warnings "-clear-no-such-hyp".

(** ** Machine integers and the handle codec *)

Definition wrap32 (n : N) : N := n mod 2 ^ 32.
Definition wrap64 (n : N) : N := n mod 2 ^ 64.

(** C truth value of an integer, and the integer value of a C [bool]. *)
Definition c_true (n : N) : bool := negb (n =? 0).
Definition c_int (b : bool) : N := if b then 1 else 0.

(** [#define HANDLE_VERSION(h) (h >> 32)] *)
Definition HANDLE_VERSION (h : N) : N := N.shiftr h 32.

(** [#define HANDLE_INTERNAL(h) (h && 0xffffffff)]: the operator is the
    logical conjunction, so the macro yields 0 or 1. *)
Definition HANDLE_INTERNAL (h : N) : N := c_int (c_true h && c_true 0xffffffff).

(** [#define HANDLE_SET(v, i) ((((uint64_t) v) << 32) | i)] *)
Definition HANDLE_SET (v i : N) : N := N.lor (wrap64 (N.shiftl v 32)) i.

(** The slot decoder as the specification words it, for comparison with
    [HANDLE_INTERNAL]: [HANDLE_SLOT(h) = h & 0xffffffff]. *)
Definition HANDLE_SLOT (h : N) : N := N.land h 0xffffffff.

Arguments wrap32 : simpl never.
Arguments wrap64 : simpl never.
Arguments HANDLE_VERSION : simpl never.
Arguments HANDLE_INTERNAL : simpl never.
Arguments HANDLE_SET : simpl never.
Arguments HANDLE_SLOT : simpl never.

Abbreviation ByteContainer := (list N).

Inductive MatchErrorCode :=
  | SUCCESS | TABLE_FULL | INVALID_HANDLE | EXPIRED_HANDLE | BAD_MATCH_KEY | ERROR.

Global Instance MatchErrorCode_eq_dec : EqDecision MatchErrorCode.
Proof. solve_decision. Defined.

(** The two statuses of a rejected handle. *)
Definition handle_error (status : MatchErrorCode) : Prop :=
  status = INVALID_HANDLE ∨ status = EXPIRED_HANDLE.

(** Result of a member function that contains [assert]s. *)
Inductive outcome (A : Type) :=
  | Returned (a : A)
  | AssertionFailed.
Arguments Returned {A} a.
Arguments AssertionFailed {A}.

(** ** Match key parameters *)

Module MatchKeyParam.
Inductive Type_ := EXACT | LPM | TERNARY | VALID.

Record t := mk {
  type : Type_;
  key : ByteContainer;
  mask : ByteContainer;
  prefix_length : Z
}.

Global Instance Type_eq_dec : EqDecision Type_.
Proof. solve_decision. Defined.

Definition exact (k : ByteContainer) : t := mk EXACT k [] 0.
Definition valid (k : ByteContainer) : t := mk VALID k [] 0.
Definition lpm (k : ByteContainer) (p : Z) : t := mk LPM k [] p.
Definition ternary (k m : ByteContainer) : t := mk TERNARY k m 0.
End MatchKeyParam.

(** The first loop of [add_entry] in the exact and LPM units ("take care
    of valid first"): the key bytes of the VALID parameters, in input
    order. *)
Fixpoint append_valid (match_key : list MatchKeyParam.t) (new_key : ByteContainer)
  : ByteContainer :=
  match match_key with
  | [] => new_key
  | param :: rest =>
      append_valid rest
        (match MatchKeyParam.type param with
         | MatchKeyParam.VALID => new_key ++ MatchKeyParam.key param
         | _ => new_key
         end)
  end.

(** ** The handle allocator *)

Module HandleMgr.
(** Modelled from the spec: the class [HandleMgr] behind the member
    [handles] (its header is not part of the sources). Section 4.1: a
    free-list of slot ids and a liveness bitmap, with the capacity fixed
    at construction. Bit [s] of [live] is set iff slot [s] is reserved.
    Iteration scans the bitmap, so it yields the live slots in
    increasing order. *)
Record t := mk {
  capacity : N;
  free_list : list N;
  live : N
}.

Definition slots (c : N) : list N := N.of_nat <$> seq 0 (N.to_nat c).

Definition new (c : N) : t := mk c (slots c) 0.

(** [is_live(slot)]. *)
Definition valid_handle (hm : t) (h : N) : bool := N.testbit (live hm) h.

(** [acquire()]: reserves a free slot id; [None] (a non-zero return in
    the source) when every slot is reserved. *)
Definition get_handle (hm : t) : option (N * t) :=
  match free_list hm with
  | [] => None
  | s :: fl => Some (s, mk (capacity hm) fl (N.setbit (live hm) s))
  end.

(** [release(slot)]: frees a reserved slot; [None] (a non-zero return in
    the source) when the slot was not reserved. *)
Definition release_handle (hm : t) (h : N) : option t :=
  if valid_handle hm h
  then Some (mk (capacity hm) (h :: free_list hm) (N.clearbit (live hm) h))
  else None.

(** [begin() .. end()]: the live slots. *)
Definition iter (hm : t) : list N :=
  filter (λ s, valid_handle hm s = true) (slots (capacity hm)).

(** Consistency of the free-list with the bitmap: the free-list holds,
    once each, the slots below the capacity that are not live, and no slot
    at or above the capacity is live. *)
Definition wf (hm : t) : Prop :=
  NoDup (free_list hm) ∧
  (∀ s, s ∈ free_list hm ↔ (s < capacity hm ∧ valid_handle hm s = false)) ∧
  (∀ s, valid_handle hm s = true → s < capacity hm).
End HandleMgr.

(** ** MatchUnitAbstract: the state and helpers shared by the variants *)

Module Abstract.
Record t := mk {
  size : N;
  nbytes_key : N;
  num_entries : N;
  handles : HandleMgr.t
}.

Definition new (size nbytes_key : N) : t :=
  mk size nbytes_key 0 (HandleMgr.new size).

(** [get_and_set_handle]: [inl status] is a return of [status] with
    [*handle] unwritten, [inr (u', h)] is a return of [SUCCESS] with
    [*handle = h]. *)
Definition get_and_set_handle (u : t) : MatchErrorCode + t * N :=
  if size u <=? num_entries u then inl TABLE_FULL
  else match HandleMgr.get_handle (handles u) with
       | None => inl ERROR
       | Some (h, hm) =>
           inr (mk (size u) (nbytes_key u) (wrap64 (num_entries u + 1)) hm, h)
       end.

Definition unset_handle (u : t) (handle : N) : MatchErrorCode * t :=
  match HandleMgr.release_handle (handles u) handle with
  | None => (INVALID_HANDLE, u)
  | Some hm =>
      (SUCCESS, mk (size u) (nbytes_key u) (wrap64 (num_entries u + (2 ^ 64 - 1))) hm)
  end.

Definition valid_handle_ (u : t) (handle : N) : bool :=
  HandleMgr.valid_handle (handles u) handle.

Definition valid_handle (u : t) (handle : N) : bool :=
  valid_handle_ u (HANDLE_INTERNAL handle).
End Abstract.

(** The effect of one call on the state of [MatchUnitAbstract]: nothing,
    a slot taken, or a live slot released. *)
Definition base_step (b b' : Abstract.t) : Prop :=
  b' = b ∨
  (∃ s, Abstract.get_and_set_handle b = inr (b', s)) ∨
  (∃ s, Abstract.valid_handle_ b s = true ∧ Abstract.unset_handle b s = (SUCCESS, b')).

(** ** MatchUnitExact *)

Module Exact.
Section with_value.
Context {V : Type} `{!Inhabited V}.

Record Entry := mkEntry {
  key : ByteContainer;
  value : V;
  version : N
}.

Global Instance Entry_inhabited : Inhabited Entry :=
  populate (mkEntry [] inhabitant 0).

Record t := mk {
  base : Abstract.t;
  entries : list Entry;
  entries_map : gmap ByteContainer N
}.

Definition new (size nbytes_key : N) : t :=
  mk (Abstract.new size nbytes_key) (replicate (N.to_nat size) inhabitant) ∅.

(** [lookup_key]: [None] is [MatchUnitLookup::empty_entry()], and
    [Some (handle, v)] the lookup whose value pointer reads [v]. *)
Definition lookup_key (u : t) (k : ByteContainer) : option (N * V) :=
  match entries_map u !! k with
  | None => None
  | Some s => Some (s, value (entries u !!! N.to_nat s))
  end.

(** Second loop of [add_entry]; the first one is [append_valid]. *)
Fixpoint append_params (match_key : list MatchKeyParam.t) (new_key : ByteContainer)
  : outcome ByteContainer :=
  match match_key with
  | [] => Returned new_key
  | param :: rest =>
      match MatchKeyParam.type param with
      | MatchKeyParam.EXACT => append_params rest (new_key ++ MatchKeyParam.key param)
      | MatchKeyParam.VALID => append_params rest new_key
      | _ => AssertionFailed
      end
  end.

(** The two loops and [assert(new_key.size() == this->nbytes_key)]. *)
Definition build_new_key (u : t) (match_key : list MatchKeyParam.t)
  : outcome ByteContainer :=
  match append_params match_key (append_valid match_key []) with
  | AssertionFailed => AssertionFailed
  | Returned new_key =>
      if N.of_nat (length new_key) =? Abstract.nbytes_key (base u)
      then Returned new_key else AssertionFailed
  end.

(** [add_entry]: the third component is the value written to [*handle],
    if any. *)
Definition add_entry (u : t) (match_key : list MatchKeyParam.t) (v : V) (priority : Z)
  : outcome (MatchErrorCode * t * option N) :=
  match build_new_key u match_key with
  | AssertionFailed => AssertionFailed
  | Returned new_key =>
      match Abstract.get_and_set_handle (base u) with
      | inl status => Returned (status, u, None)
      | inr (b, handle_) =>
          let version := version (entries u !!! N.to_nat handle_) in
          let handle := HANDLE_SET version handle_ in
          Returned (SUCCESS,
                    mk b
                       (<[N.to_nat handle_ := mkEntry new_key v version]> (entries u))
                       (<[new_key := handle_]> (entries_map u)),
                    Some handle)
      end
  end.

Definition delete_entry (u : t) (handle : N) : MatchErrorCode * t :=
  let handle_ := HANDLE_INTERNAL handle in
  if negb (Abstract.valid_handle_ (base u) handle_) then (INVALID_HANDLE, u)
  else
    let entry := entries u !!! N.to_nat handle_ in
    if negb (HANDLE_VERSION handle =? version entry) then (EXPIRED_HANDLE, u)
    else
      let entry := mkEntry (key entry) (value entry) (wrap32 (version entry + 1)) in
      let entries' := <[N.to_nat handle_ := entry]> (entries u) in
      let entries_map' := delete (key entry) (entries_map u) in
      let '(status, b) := Abstract.unset_handle (base u) handle_ in
      (status, mk b entries' entries_map').

Definition modify_entry (u : t) (handle : N) (v : V) : MatchErrorCode * t :=
  let handle_ := HANDLE_INTERNAL handle in
  if negb (Abstract.valid_handle_ (base u) handle_) then (INVALID_HANDLE, u)
  else
    let entry := entries u !!! N.to_nat handle_ in
    if negb (HANDLE_VERSION handle =? version entry) then (EXPIRED_HANDLE, u)
    else
      let entry := mkEntry (key entry) v (version entry) in
      (SUCCESS, mk (base u) (<[N.to_nat handle_ := entry]> (entries u)) (entries_map u)).

(** [get_value]: the third component is the value behind [*value], if
    written. This variant tests liveness through the public
    [valid_handle], which decodes its argument once more. *)
Definition get_value (u : t) (handle : N) : MatchErrorCode * t * option V :=
  let handle_ := HANDLE_INTERNAL handle in
  if negb (Abstract.valid_handle (base u) handle_) then (INVALID_HANDLE, u, None)
  else
    let entry := entries u !!! N.to_nat handle_ in
    if negb (HANDLE_VERSION handle =? version entry) then (EXPIRED_HANDLE, u, None)
    else (SUCCESS, u, Some (value entry)).

(** The invariant of the exact unit: the allocator is consistent and has
    the capacity [size]; the vector [entries] has [size] elements; a slot
    fits in the low 32 bits of a handle; [num_entries] counts the live
    slots; and every binding of [entries_map] leads from the key of a live
    entry to its slot. *)
Definition wf (u : t) : Prop :=
  HandleMgr.wf (Abstract.handles (base u)) ∧
  HandleMgr.capacity (Abstract.handles (base u)) = Abstract.size (base u) ∧
  length (entries u) = N.to_nat (Abstract.size (base u)) ∧
  Abstract.size (base u) ≤ 2 ^ 32 ∧
  Abstract.num_entries (base u)
    + N.of_nat (length (HandleMgr.free_list (Abstract.handles (base u))))
    = Abstract.size (base u) ∧
  ∀ k s, entries_map u !! k = Some s →
         Abstract.valid_handle_ (base u) s = true ∧ key (entries u !!! N.to_nat s) = k.
End with_value.
Arguments Entry : clear implicits.
Arguments t : clear implicits.
End Exact.

(** ** The LPM trie *)

Module LPMTrie.
(** Modelled from the spec: the class behind the member [entries_trie]
    (its sources are not part of the repository files given). Section 4.4:
    a bitwise trie keyed by the [prefix_length] high-order bits of the key;
    [lookup] walks down bit by bit and returns the last binding met. *)
Inductive t :=
  | Leaf
  | Node (binding : option N) (zero one : t).

Definition bits_of_byte (b : N) : list bool :=
  (λ i, N.testbit b i) <$> [7; 6; 5; 4; 3; 2; 1; 0].

Definition bits (key : ByteContainer) : list bool := mjoin (bits_of_byte <$> key).

Fixpoint insert (bs : list bool) (s : N) (tr : t) : t :=
  match bs, tr with
  | [], Leaf => Node (Some s) Leaf Leaf
  | [], Node _ z o => Node (Some s) z o
  | true :: r, Leaf => Node None Leaf (insert r s Leaf)
  | false :: r, Leaf => Node None (insert r s Leaf) Leaf
  | true :: r, Node x z o => Node x z (insert r s o)
  | false :: r, Node x z o => Node x (insert r s z) o
  end.

Fixpoint remove (bs : list bool) (tr : t) : option t :=
  match bs, tr with
  | _, Leaf => None
  | [], Node None _ _ => None
  | [], Node (Some _) z o => Some (Node None z o)
  | true :: r, Node x z o => (λ o', Node x z o') <$> remove r o
  | false :: r, Node x z o => (λ z', Node x z' o) <$> remove r z
  end.

Fixpoint walk (bs : list bool) (tr : t) (best : option N) : option N :=
  match tr with
  | Leaf => best
  | Node x z o =>
      let best := match x with Some s => Some s | None => best end in
      match bs with
      | [] => best
      | true :: r => walk r o best
      | false :: r => walk r z best
      end
  end.

Definition prefix (key : ByteContainer) (prefix_length : Z) : list bool :=
  take (Z.to_nat prefix_length) (bits key).

Definition insert_prefix (tr : t) (key : ByteContainer) (prefix_length : Z) (s : N) : t :=
  insert (prefix key prefix_length) s tr.

(** [None] is the [false] return of the source: no such binding. *)
Definition delete_prefix (tr : t) (key : ByteContainer) (prefix_length : Z) : option t :=
  remove (prefix key prefix_length) tr.

Definition lookup (tr : t) (key : ByteContainer) : option N := walk (bits key) tr None.
End LPMTrie.

(** Conversion of an integer to [int] (two's complement, 32 bits). *)
Definition to_int (z : Z) : Z := ((z + 2 ^ 31) mod 2 ^ 32 - 2 ^ 31)%Z.

(** ** MatchUnitLPM *)

Module LPM.
Section with_value.
Context {V : Type} `{!Inhabited V}.

Record Entry := mkEntry {
  key : ByteContainer;
  prefix_length : Z;
  value : V;
  version : N
}.

Global Instance Entry_inhabited : Inhabited Entry :=
  populate (mkEntry [] 0 inhabitant 0).

Record t := mk {
  base : Abstract.t;
  entries : list Entry;
  entries_trie : LPMTrie.t
}.

Definition new (size nbytes_key : N) : t :=
  mk (Abstract.new size nbytes_key) (replicate (N.to_nat size) inhabitant) LPMTrie.Leaf.

Definition lookup_key (u : t) (k : ByteContainer) : option (N * V) :=
  match LPMTrie.lookup (entries_trie u) k with
  | Some handle => Some (handle, value (entries u !!! N.to_nat handle))
  | None => None
  end.

(** Second loop of [add_entry]: the state is [new_key], [prefix_length]
    and [lpm_param] ([None] for [nullptr]). *)
Fixpoint append_params (match_key : list MatchKeyParam.t) (new_key : ByteContainer)
    (prefix_length : Z) (lpm_param : option MatchKeyParam.t)
  : outcome (ByteContainer * Z * option MatchKeyParam.t) :=
  match match_key with
  | [] => Returned (new_key, prefix_length, lpm_param)
  | param :: rest =>
      match MatchKeyParam.type param with
      | MatchKeyParam.EXACT =>
          append_params rest (new_key ++ MatchKeyParam.key param)
            (to_int (prefix_length + Z.of_nat (length (MatchKeyParam.key param))))
            lpm_param
      | MatchKeyParam.LPM =>
          match lpm_param with
          | Some _ => AssertionFailed
          | None => append_params rest new_key prefix_length (Some param)
          end
      | MatchKeyParam.VALID => append_params rest new_key prefix_length lpm_param
      | MatchKeyParam.TERNARY => AssertionFailed
      end
  end.

(** Everything [add_entry] does before it asks for a handle: the key and
    the prefix length of the new entry. *)
Definition build_new_key (u : t) (match_key : list MatchKeyParam.t)
  : outcome (ByteContainer * Z) :=
  match append_params match_key (append_valid match_key []) 0 None with
  | AssertionFailed => AssertionFailed
  | Returned (_, _, None) => AssertionFailed
  | Returned (new_key, prefix_length, Some lpm_param) =>
      let new_key := new_key ++ MatchKeyParam.key lpm_param in
      let prefix_length := to_int (prefix_length + MatchKeyParam.prefix_length lpm_param) in
      if N.of_nat (length new_key) =? Abstract.nbytes_key (base u)
      then Returned (new_key, prefix_length) else AssertionFailed
  end.

Definition add_entry (u : t) (match_key : list MatchKeyParam.t) (v : V) (priority : Z)
  : outcome (MatchErrorCode * t * option N) :=
  match build_new_key u match_key with
  | AssertionFailed => AssertionFailed
  | Returned (new_key, prefix_length) =>
      match Abstract.get_and_set_handle (base u) with
      | inl status => Returned (status, u, None)
      | inr (b, handle_) =>
          let version := version (entries u !!! N.to_nat handle_) in
          let handle := HANDLE_SET version handle_ in
          Returned (SUCCESS,
                    mk b
                       (<[N.to_nat handle_ := mkEntry new_key prefix_length v version]>
                          (entries u))
                       (LPMTrie.insert_prefix (entries_trie u) new_key prefix_length handle_),
                    Some handle)
      end
  end.

Definition delete_entry (u : t) (handle : N) : outcome (MatchErrorCode * t) :=
  let handle_ := HANDLE_INTERNAL handle in
  if negb (Abstract.valid_handle_ (base u) handle_) then Returned (INVALID_HANDLE, u)
  else
    let entry := entries u !!! N.to_nat handle_ in
    if negb (HANDLE_VERSION handle =? version entry) then Returned (EXPIRED_HANDLE, u)
    else
      let entry :=
        mkEntry (key entry) (prefix_length entry) (value entry) (wrap32 (version entry + 1)) in
      let entries' := <[N.to_nat handle_ := entry]> (entries u) in
      match LPMTrie.delete_prefix (entries_trie u) (key entry) (prefix_length entry) with
      | None => AssertionFailed
      | Some trie' =>
          let '(status, b) := Abstract.unset_handle (base u) handle_ in
          Returned (status, mk b entries' trie')
      end.

Definition modify_entry (u : t) (handle : N) (v : V) : MatchErrorCode * t :=
  let handle_ := HANDLE_INTERNAL handle in
  if negb (Abstract.valid_handle_ (base u) handle_) then (INVALID_HANDLE, u)
  else
    let entry := entries u !!! N.to_nat handle_ in
    if negb (HANDLE_VERSION handle =? version entry) then (EXPIRED_HANDLE, u)
    else
      let entry := mkEntry (key entry) (prefix_length entry) v (version entry) in
      (SUCCESS, mk (base u) (<[N.to_nat handle_ := entry]> (entries u)) (entries_trie u)).

Definition get_value (u : t) (handle : N) : MatchErrorCode * t * option V :=
  let handle_ := HANDLE_INTERNAL handle in
  if negb (Abstract.valid_handle_ (base u) handle_) then (INVALID_HANDLE, u, None)
  else
    let entry := entries u !!! N.to_nat handle_ in
    if negb (HANDLE_VERSION handle =? version entry) then (EXPIRED_HANDLE, u, None)
    else (SUCCESS, u, Some (value entry)).
End with_value.
Arguments Entry : clear implicits.
Arguments t : clear implicits.
End LPM.

(** ** MatchUnitTernary *)

(** [create_mask_from_pref_len]: [size] zero bytes, the first
    [prefix_length / 8] of them set to [0xff], and the next one to the high
    bits of [0xFF << (8 - prefix_length % 8)] when the length is not a
    multiple of 8. *)
Definition create_mask_from_pref_len (prefix_length : Z) (size : nat) : ByteContainer :=
  let q := Z.to_nat (Z.quot prefix_length 8) in
  let mask := replicate (q `min` size) 0xff ++ replicate (size - q) 0 in
  if decide (Z.rem prefix_length 8 = 0%Z) then mask
  else <[q := N.land (N.shiftl 0xFF (Z.to_N (8 - Z.rem prefix_length 8))) 0xff]> mask.

Module Ternary.
Section with_value.
Context {V : Type} `{!Inhabited V}.

Record Entry := mkEntry {
  key : ByteContainer;
  mask : ByteContainer;
  priority : Z;
  value : V;
  version : N
}.

Global Instance Entry_inhabited : Inhabited Entry :=
  populate (mkEntry [] [] 0 inhabitant 0).

Record t := mk {
  base : Abstract.t;
  entries : list Entry
}.

Definition new (size nbytes_key : N) : t :=
  mk (Abstract.new size nbytes_key) (replicate (N.to_nat size) inhabitant).

(** The inner loop of [lookup_key]: [match] after the scan of the
    [nbytes_key] byte positions (the [break] is the short cut of [&&]). *)
Definition bytes_match (nbytes_key : N) (entry : Entry) (k : ByteContainer) : bool :=
  forallb (λ byte_index,
             (key entry !!! byte_index) =? N.land (k !!! byte_index) (mask entry !!! byte_index))
          (seq 0 (N.to_nat nbytes_key)).

(** The outer loop of [lookup_key] over the handles still to visit; the
    state is [max_priority] and the pair [max_handle], [max_entry] ([None]
    for [nullptr]). *)
Fixpoint scan (u : t) (k : ByteContainer) (its : list N)
    (max_priority : Z) (max : option (N * Entry)) : option (N * Entry) :=
  match its with
  | [] => max
  | it :: rest =>
      let entry := entries u !!! N.to_nat it in
      if (priority entry <=? max_priority)%Z then scan u k rest max_priority max
      else if bytes_match (Abstract.nbytes_key (base u)) entry k
           then scan u k rest (priority entry) (Some (it, entry))
           else scan u k rest max_priority max
  end.

Definition lookup_key (u : t) (k : ByteContainer) : option (N * V) :=
  match scan u k (HandleMgr.iter (Abstract.handles (base u))) 0 None with
  | Some (max_handle, max_entry) => Some (max_handle, value max_entry)
  | None => None
  end.

(** First loop of [add_entry]: key and mask bytes of the VALID
    parameters. *)
Fixpoint append_valid_mask (match_key : list MatchKeyParam.t)
    (new_key new_mask : ByteContainer) : ByteContainer * ByteContainer :=
  match match_key with
  | [] => (new_key, new_mask)
  | param :: rest =>
      match MatchKeyParam.type param with
      | MatchKeyParam.VALID =>
          append_valid_mask rest (new_key ++ MatchKeyParam.key param) (new_mask ++ [0xff])
      | _ => append_valid_mask rest new_key new_mask
      end
  end.

(** Second loop of [add_entry]; the four parameter types are all handled,
    so the [default] branch is never taken. *)
Fixpoint append_params (match_key : list MatchKeyParam.t)
    (new_key new_mask : ByteContainer) : ByteContainer * ByteContainer :=
  match match_key with
  | [] => (new_key, new_mask)
  | param :: rest =>
      let k := MatchKeyParam.key param in
      match MatchKeyParam.type param with
      | MatchKeyParam.EXACT =>
          append_params rest (new_key ++ k) (new_mask ++ replicate (length k) 0xff)
      | MatchKeyParam.LPM =>
          append_params rest (new_key ++ k)
            (new_mask ++ create_mask_from_pref_len (MatchKeyParam.prefix_length param) (length k))
      | MatchKeyParam.TERNARY =>
          append_params rest (new_key ++ k) (new_mask ++ MatchKeyParam.mask param)
      | MatchKeyParam.VALID => append_params rest new_key new_mask
      end
  end.

Definition build_new_key (u : t) (match_key : list MatchKeyParam.t)
  : outcome (ByteContainer * ByteContainer) :=
  let '(new_key, new_mask) := append_valid_mask match_key [] [] in
  let '(new_key, new_mask) := append_params match_key new_key new_mask in
  if N.of_nat (length new_key) =? Abstract.nbytes_key (base u) then
    if N.of_nat (length new_mask) =? Abstract.nbytes_key (base u)
    then Returned (new_key, new_mask) else AssertionFailed
  else AssertionFailed.

Definition add_entry (u : t) (match_key : list MatchKeyParam.t) (v : V) (priority : Z)
  : outcome (MatchErrorCode * t * option N) :=
  match build_new_key u match_key with
  | AssertionFailed => AssertionFailed
  | Returned (new_key, new_mask) =>
      match Abstract.get_and_set_handle (base u) with
      | inl status => Returned (status, u, None)
      | inr (b, handle_) =>
          let version := version (entries u !!! N.to_nat handle_) in
          let handle := HANDLE_SET version handle_ in
          Returned (SUCCESS,
                    mk b (<[N.to_nat handle_ := mkEntry new_key new_mask priority v version]>
                            (entries u)),
                    Some handle)
      end
  end.

Definition delete_entry (u : t) (handle : N) : MatchErrorCode * t :=
  let handle_ := HANDLE_INTERNAL handle in
  if negb (Abstract.valid_handle_ (base u) handle_) then (INVALID_HANDLE, u)
  else
    let entry := entries u !!! N.to_nat handle_ in
    if negb (HANDLE_VERSION handle =? version entry) then (EXPIRED_HANDLE, u)
    else
      let entry :=
        mkEntry (key entry) (mask entry) (priority entry) (value entry)
                (wrap32 (version entry + 1)) in
      let entries' := <[N.to_nat handle_ := entry]> (entries u) in
      let '(status, b) := Abstract.unset_handle (base u) handle_ in
      (status, mk b entries').

(** This variant of [modify_entry] tests liveness through the public
    [valid_handle], which decodes its argument once more. *)
Definition modify_entry (u : t) (handle : N) (v : V) : MatchErrorCode * t :=
  let handle_ := HANDLE_INTERNAL handle in
  if negb (Abstract.valid_handle (base u) handle_) then (INVALID_HANDLE, u)
  else
    let entry := entries u !!! N.to_nat handle_ in
    if negb (HANDLE_VERSION handle =? version entry) then (EXPIRED_HANDLE, u)
    else
      let entry := mkEntry (key entry) (mask entry) (priority entry) v (version entry) in
      (SUCCESS, mk (base u) (<[N.to_nat handle_ := entry]> (entries u))).

Definition get_value (u : t) (handle : N) : MatchErrorCode * t * option V :=
  let handle_ := HANDLE_INTERNAL handle in
  if negb (Abstract.valid_handle_ (base u) handle_) then (INVALID_HANDLE, u, None)
  else
    let entry := entries u !!! N.to_nat handle_ in
    if negb (HANDLE_VERSION handle =? version entry) then (EXPIRED_HANDLE, u, None)
    else (SUCCESS, u, Some (value entry)).

(** Matching as the specification words it: for every byte index [i],
    [entry.key[i] == (k[i] & entry.mask[i])]. *)
Definition matches (u : t) (s : N) (k : ByteContainer) : Prop :=
  let entry := entries u !!! N.to_nat s in
  ∀ i : nat, N.of_nat i < Abstract.nbytes_key (base u) →
             key entry !!! i = N.land (k !!! i) (mask entry !!! i).

Definition priority_at (u : t) (s : N) : Z := priority (entries u !!! N.to_nat s).
Definition value_at (u : t) (s : N) : V := value (entries u !!! N.to_nat s).

(** The slots in the order in which [lookup_key] visits them. *)
Definition visited (u : t) : list N := HandleMgr.iter (Abstract.handles (base u)).
End with_value.
Arguments Entry : clear implicits.
Arguments t : clear implicits.
End Ternary.

(** ** The three variants behind the interface of [MatchUnitAbstract] *)

Module MatchUnit.
Section with_value.
Context {V : Type} `{!Inhabited V}.

(** An object of one of the three subclasses. *)
Inductive t :=
  | OfExact (u : Exact.t V)
  | OfLPM (u : LPM.t V)
  | OfTernary (u : Ternary.t V).

Definition base (m : t) : Abstract.t :=
  match m with
  | OfExact u => Exact.base u
  | OfLPM u => LPM.base u
  | OfTernary u => Ternary.base u
  end.

(** [entries[s].version] *)
Definition version_at (m : t) (s : N) : N :=
  match m with
  | OfExact u => Exact.version (Exact.entries u !!! N.to_nat s)
  | OfLPM u => LPM.version (LPM.entries u !!! N.to_nat s)
  | OfTernary u => Ternary.version (Ternary.entries u !!! N.to_nat s)
  end.

Definition valid_handle (m : t) (handle : N) : bool :=
  Abstract.valid_handle (base m) handle.

(** The virtual member functions, dispatched on the subclass. *)
Definition lookup_key (m : t) (k : ByteContainer) : option (N * V) :=
  match m with
  | OfExact u => Exact.lookup_key u k
  | OfLPM u => LPM.lookup_key u k
  | OfTernary u => Ternary.lookup_key u k
  end.

Definition add_entry (m : t) (match_key : list MatchKeyParam.t) (v : V) (priority : Z)
  : outcome (MatchErrorCode * t * option N) :=
  match m with
  | OfExact u =>
      match Exact.add_entry u match_key v priority with
      | Returned (status, u', h) => Returned (status, OfExact u', h)
      | AssertionFailed => AssertionFailed
      end
  | OfLPM u =>
      match LPM.add_entry u match_key v priority with
      | Returned (status, u', h) => Returned (status, OfLPM u', h)
      | AssertionFailed => AssertionFailed
      end
  | OfTernary u =>
      match Ternary.add_entry u match_key v priority with
      | Returned (status, u', h) => Returned (status, OfTernary u', h)
      | AssertionFailed => AssertionFailed
      end
  end.

Definition delete_entry (m : t) (handle : N) : outcome (MatchErrorCode * t) :=
  match m with
  | OfExact u => let '(status, u') := Exact.delete_entry u handle in Returned (status, OfExact u')
  | OfLPM u =>
      match LPM.delete_entry u handle with
      | Returned (status, u') => Returned (status, OfLPM u')
      | AssertionFailed => AssertionFailed
      end
  | OfTernary u =>
      let '(status, u') := Ternary.delete_entry u handle in Returned (status, OfTernary u')
  end.

Definition modify_entry (m : t) (handle : N) (v : V) : MatchErrorCode * t :=
  match m with
  | OfExact u => let '(status, u') := Exact.modify_entry u handle v in (status, OfExact u')
  | OfLPM u => let '(status, u') := LPM.modify_entry u handle v in (status, OfLPM u')
  | OfTernary u => let '(status, u') := Ternary.modify_entry u handle v in (status, OfTernary u')
  end.

Definition get_value (m : t) (handle : N) : MatchErrorCode * t * option V :=
  match m with
  | OfExact u => let '(status, u', v) := Exact.get_value u handle in (status, OfExact u', v)
  | OfLPM u => let '(status, u', v) := LPM.get_value u handle in (status, OfLPM u', v)
  | OfTernary u => let '(status, u', v) := Ternary.get_value u handle in (status, OfTernary u', v)
  end.

(** The key [add_entry] builds for the new entry, before it asks for a
    handle. *)
Definition build_new_key (m : t) (match_key : list MatchKeyParam.t) : outcome ByteContainer :=
  match m with
  | OfExact u => Exact.build_new_key u match_key
  | OfLPM u =>
      match LPM.build_new_key u match_key with
      | Returned (new_key, _) => Returned new_key
      | AssertionFailed => AssertionFailed
      end
  | OfTernary u =>
      match Ternary.build_new_key u match_key with
      | Returned (new_key, _) => Returned new_key
      | AssertionFailed => AssertionFailed
      end
  end.

(** Control-plane calls, and the run of a sequence of them from a state;
    a run stops at the first failed assertion. *)
Inductive call :=
  | AddEntry (match_key : list MatchKeyParam.t) (v : V) (priority : Z)
  | DeleteEntry (handle : N)
  | ModifyEntry (handle : N) (v : V)
  | GetValue (handle : N).

Definition step (m : t) (c : call) : outcome (MatchErrorCode * t) :=
  match c with
  | AddEntry match_key v priority =>
      match add_entry m match_key v priority with
      | Returned (status, m', _) => Returned (status, m')
      | AssertionFailed => AssertionFailed
      end
  | DeleteEntry handle => delete_entry m handle
  | ModifyEntry handle v => Returned (modify_entry m handle v)
  | GetValue handle => let '(status, m', _) := get_value m handle in Returned (status, m')
  end.

Fixpoint run (m : t) (calls : list call) : outcome t :=
  match calls with
  | [] => Returned m
  | c :: rest =>
      match step m c with
      | Returned (_, m') => run m' rest
      | AssertionFailed => AssertionFailed
      end
  end.

(** The number of [delete_entry] calls in a sequence. *)
Fixpoint deletions (calls : list call) : N :=
  match calls with
  | [] => 0
  | DeleteEntry _ :: rest => 1 + deletions rest
  | _ :: rest => deletions rest
  end.

(** [entries.size()] *)
Definition n_entries (m : t) : nat :=
  match m with
  | OfExact u => length (Exact.entries u)
  | OfLPM u => length (LPM.entries u)
  | OfTernary u => length (Ternary.entries u)
  end.

(** The part of the invariant that the three variants share: the
    allocator is consistent, and its capacity and the length of the vector
    [entries] are both [size], so that a live slot indexes the vector in
    range. *)
Definition wf (m : t) : Prop :=
  HandleMgr.wf (Abstract.handles (base m)) ∧
  HandleMgr.capacity (Abstract.handles (base m)) = Abstract.size (base m) ∧
  n_entries m = N.to_nat (Abstract.size (base m)).

(** The handle check as the code performs it: the slot the macro decodes
    is live and holds the version of the handle. *)
Definition accepted (m : t) (handle : N) : Prop :=
  Abstract.valid_handle_ (base m) (HANDLE_INTERNAL handle) = true ∧
  version_at m (HANDLE_INTERNAL handle) = HANDLE_VERSION handle.

Definition new_exact (size nbytes_key : N) : t := OfExact (Exact.new size nbytes_key).
Definition new_lpm (size nbytes_key : N) : t := OfLPM (LPM.new size nbytes_key).
Definition new_ternary (size nbytes_key : N) : t := OfTernary (Ternary.new size nbytes_key).
End with_value.
Arguments t : clear implicits.
Arguments call : clear implicits.
End MatchUnit.

(** ** The canonical key, as the specification words it *)

(** VALID parameters first, in input order. *)
Definition valid_bytes (match_key : list MatchKeyParam.t) : ByteContainer :=
  mjoin (MatchKeyParam.key <$>
           filter (λ p, MatchKeyParam.type p = MatchKeyParam.VALID) match_key).

(** Then the remaining parameters, in input order. *)
Definition canonical_key (match_key : list MatchKeyParam.t) : ByteContainer :=
  valid_bytes match_key ++
  mjoin (MatchKeyParam.key <$>
           filter (λ p, MatchKeyParam.type p ≠ MatchKeyParam.VALID) match_key).

(** The key of the LPM unit: VALID bytes, then EXACT bytes, then the bytes
    of the LPM parameter. *)
Definition lpm_canonical_key (match_key : list MatchKeyParam.t) : ByteContainer :=
  valid_bytes match_key ++
  mjoin (MatchKeyParam.key <$>
           filter (λ p, MatchKeyParam.type p = MatchKeyParam.EXACT) match_key) ++
  mjoin (MatchKeyParam.key <$>
           filter (λ p, MatchKeyParam.type p = MatchKeyParam.LPM) match_key).

(** ** Further observations of a match unit *)

Section observations.
Context {V : Type} `{!Inhabited V}.

(** [entries[s].value] *)
Definition value_at (m : MatchUnit.t V) (s : N) : V :=
  match m with
  | MatchUnit.OfExact u => Exact.value (Exact.entries u !!! N.to_nat s)
  | MatchUnit.OfLPM u => LPM.value (LPM.entries u !!! N.to_nat s)
  | MatchUnit.OfTernary u => Ternary.value (Ternary.entries u !!! N.to_nat s)
  end.

(** [entries[s].key] *)
Definition key_at (m : MatchUnit.t V) (s : N) : ByteContainer :=
  match m with
  | MatchUnit.OfExact u => Exact.key (Exact.entries u !!! N.to_nat s)
  | MatchUnit.OfLPM u => LPM.key (LPM.entries u !!! N.to_nat s)
  | MatchUnit.OfTernary u => Ternary.key (Ternary.entries u !!! N.to_nat s)
  end.

(** The handle a call is made on: none for [add_entry]. *)
Definition handle_of (c : MatchUnit.call V) : option N :=
  match c with
  | MatchUnit.AddEntry _ _ _ => None
  | MatchUnit.DeleteEntry handle
  | MatchUnit.ModifyEntry handle _
  | MatchUnit.GetValue handle => Some handle
  end.

(** The number of live slots, as the iteration over [handles] counts
    them. *)
Definition live_count (m : MatchUnit.t V) : N :=
  N.of_nat (length (HandleMgr.iter (Abstract.handles (MatchUnit.base m)))).

(** [size] fits a [size_t], and [num_entries] is the number of slots that
    are not on the free-list of the allocator. *)
Definition counted (m : MatchUnit.t V) : Prop :=
  Abstract.size (MatchUnit.base m) < 2 ^ 64 ∧
  Abstract.num_entries (MatchUnit.base m)
    + N.of_nat (length (HandleMgr.free_list (Abstract.handles (MatchUnit.base m))))
    = Abstract.size (MatchUnit.base m).

(** Every stored version is a [uint32_t] value. *)
Definition versions_bounded (m : MatchUnit.t V) : Prop :=
  ∀ s, MatchUnit.version_at m s < 2 ^ 32.
End observations.

(** Bit [i] of a byte string, counted from the most significant bit of
    its first byte. *)
Definition bit_at (bytes : ByteContainer) (i : nat) : bool :=
  N.testbit (bytes !!! (i / 8)%nat) (N.of_nat (7 - i mod 8)).

(** The parameter lists that [add_entry] of the ternary unit is meant
    for: one key byte per VALID parameter, a mask as long as the key for a
    TERNARY parameter, a prefix length within the key for an LPM
    parameter. *)
Definition ternary_param_ok (p : MatchKeyParam.t) : Prop :=
  match MatchKeyParam.type p with
  | MatchKeyParam.VALID => length (MatchKeyParam.key p) = 1%nat
  | MatchKeyParam.TERNARY => length (MatchKeyParam.mask p) = length (MatchKeyParam.key p)
  | MatchKeyParam.LPM =>
      (0 ≤ MatchKeyParam.prefix_length p ≤ 8 * Z.of_nat (length (MatchKeyParam.key p)))%Z
  | MatchKeyParam.EXACT => True
  end.

(** ** Scenarios

    Concrete units with values of type [N], used to run the operations on
    explicit inputs. *)

Module Scenario.
Import MatchKeyParam MatchUnit.

Definition key_a : list MatchKeyParam.t := [exact [0xAB; 0xCD]].
Definition key_b : list MatchKeyParam.t := [exact [0xAB; 0xCE]].
Definition key_c : list MatchKeyParam.t := [exact [0xAB; 0xCF]].

(** An exact unit of capacity 3 after three insertions, which take the
    slots 0, 1 and 2 and return the handles 0, 1 and 2. *)
Definition exact3 : outcome (MatchUnit.t N) :=
  run (OfExact (Exact.new 3 2)) [AddEntry key_a 7 0; AddEntry key_b 8 0; AddEntry key_c 9 0].

(** The same unit before the third insertion. *)
Definition exact2 : outcome (MatchUnit.t N) :=
  run (OfExact (Exact.new 3 2)) [AddEntry key_a 7 0; AddEntry key_b 8 0].

(** An exact unit of capacity 1 after an insertion (handle 0) and the
    deletion of that entry. *)
Definition exact_deleted : outcome (MatchUnit.t N) :=
  run (OfExact (Exact.new 1 2)) [AddEntry key_a 7 0; DeleteEntry 0].

(** The same unit after a second insertion, which takes slot 0 again. *)
Definition exact_reused : outcome (MatchUnit.t N) :=
  run (OfExact (Exact.new 1 2)) [AddEntry key_a 7 0; DeleteEntry 0; AddEntry key_a 8 0].

(** An exact unit of capacity 2 holding one entry. *)
Definition exact_one : outcome (MatchUnit.t N) :=
  run (OfExact (Exact.new 2 2)) [AddEntry key_a 7 0].

(** A ternary unit whose only entry has priority 0 and matches every key
    with first byte [0x12]. *)
Definition ternary_zero : outcome (MatchUnit.t N) :=
  run (OfTernary (Ternary.new 2 2)) [AddEntry [ternary [0x12; 0x00] [0xFF; 0x00]] 7 0].

(** A ternary unit with the entries [0x1200 &&& 0xFF00] of priority 10
    and [0x1234 &&& 0xFFFF] of priority 5. *)
Definition ternary_two : outcome (MatchUnit.t N) :=
  run (OfTernary (Ternary.new 4 2))
      [AddEntry [ternary [0x12; 0x00] [0xFF; 0x00]] 7 10;
       AddEntry [ternary [0x12; 0x34] [0xFF; 0xFF]] 8 5].

(** Parameters for the LPM unit: one EXACT byte and a two-byte LPM field
    with a prefix of 12 bits. *)
Definition lpm_params : list MatchKeyParam.t := [exact [0x0A]; lpm [0xC0; 0xA8] 12].

(** Parameters whose LPM field comes before an EXACT field. *)
Definition lpm_first_params : list MatchKeyParam.t := [lpm [0xC0] 8; exact [0xAA]].

(** The parameters of the VALID ordering scenario. *)
Definition valid_params : list MatchKeyParam.t := [exact [0xAA]; valid [0x01]; exact [0xBB]].

(** An exact unit of capacity 2 with two entries, on the slots 0 and 1
    (handles 0 and 1). *)
Definition exact_pair : outcome (MatchUnit.t N) :=
  run (OfExact (Exact.new 2 2)) [AddEntry key_a 7 0; AddEntry key_b 8 0].

(** That unit once the entry of slot 1 has been deleted, as a function of
    the version that slot 1 has reached. *)
Definition exact_slot1_free (ver : N) : Exact.t N :=
  Exact.mk (Abstract.mk 2 2 1 (HandleMgr.mk 2 [1] 1))
           [Exact.mkEntry [0xAB; 0xCD] 7 0; Exact.mkEntry [0xAB; 0xCE] 8 ver]
           {[ [0xAB; 0xCD] := 0 ]}.

(** One more insertion under [key_b], deleted again through the handle
    that the insertion wrote out. *)
Definition reinsert_and_delete (u : Exact.t N) : Exact.t N :=
  match Exact.add_entry u key_b 8 0 with
  | Returned (SUCCESS, u', Some h) => (Exact.delete_entry u' h).2
  | _ => u
  end.
End Scenario.

(** * Properties *)

(** Case analysis on the two tests every operation on a handle starts
    with: liveness of the decoded slot, then the version. *)
Ltac handle_check Hlive Hver :=
  lazymatch goal with
  | |- context [negb (Abstract.valid_handle_ ?b ?s)] =>
      destruct (Abstract.valid_handle_ b s) eqn:Hlive; cbn [negb]
  end;
  [ lazymatch goal with
    | |- context [negb (?a =? ?b)] => destruct (N.eqb_spec a b) as [Hver|Hver]; cbn [negb]
    end
  | ].

(** ** The handle codec *)

Lemma HANDLE_INTERNAL_cases (h : N) :
  HANDLE_INTERNAL h = if h =? 0 then 0 else 1.
Proof. unfold HANDLE_INTERNAL, c_true. by destruct (h =? 0). Qed.

Lemma HANDLE_INTERNAL_idem (h : N) :
  HANDLE_INTERNAL (HANDLE_INTERNAL h) = HANDLE_INTERNAL h.
Proof. rewrite (HANDLE_INTERNAL_cases h). by destruct (h =? 0). Qed.

(** The macro agrees with the mask exactly on the handle 0 and on the
    handles of slot 1. *)
Lemma HANDLE_INTERNAL_is_slot (h : N) :
  HANDLE_INTERNAL h = HANDLE_SLOT h ↔ h = 0 ∨ HANDLE_SLOT h = 1.
Proof.
  rewrite HANDLE_INTERNAL_cases. destruct (N.eqb_spec h 0) as [->|Hne].
  - split; [by left | done].
  - split; [intros <-; by right | intros [?| ->]; done].
Qed.

Lemma testbit_small (s n k : N) : s < 2 ^ k → k ≤ n → N.testbit s n = false.
Proof.
  intros Hs Hn. rewrite <- (N.mod_small s (2 ^ k)) by done.
  by apply N.mod_pow2_bits_high.
Qed.

Lemma HANDLE_SLOT_SET (v s : N) : s < 2 ^ 32 → HANDLE_SLOT (HANDLE_SET v s) = s.
Proof.
  intros Hs. unfold HANDLE_SLOT, HANDLE_SET, wrap64.
  change 0xffffffff with (N.ones 32). rewrite N.land_ones.
  apply N.bits_inj. intros n. destruct (N.lt_ge_cases n 32) as [Hn|Hn].
  - rewrite N.mod_pow2_bits_low, N.lor_spec by done.
    rewrite N.mod_pow2_bits_low by lia. by rewrite N.shiftl_spec_low.
  - rewrite N.mod_pow2_bits_high by done. symmetry. by eapply testbit_small.
Qed.

Lemma HANDLE_VERSION_SET (v s : N) :
  v < 2 ^ 32 → s < 2 ^ 32 → HANDLE_VERSION (HANDLE_SET v s) = v.
Proof.
  intros Hv Hs. unfold HANDLE_VERSION, HANDLE_SET, wrap64.
  apply N.bits_inj. intros n.
  rewrite N.shiftr_spec', N.lor_spec. rewrite (testbit_small s (n + 32) 32) by (done || lia).
  rewrite orb_false_r. destruct (N.lt_ge_cases n 32) as [Hn|Hn].
  - rewrite N.mod_pow2_bits_low by lia. rewrite N.shiftl_spec_high' by lia.
    f_equal. lia.
  - rewrite N.mod_pow2_bits_high by lia. symmetry. by eapply testbit_small.
Qed.

(** ** The handle allocator *)

Section handle_mgr.
Import HandleMgr.

Lemma elem_of_slots (c s : N) : s ∈ slots c ↔ s < c.
Proof.
  unfold slots. rewrite list_elem_of_fmap. split.
  - intros (i & -> & Hi). apply elem_of_seq in Hi. lia.
  - intros Hs. exists (N.to_nat s). split; [lia|]. apply elem_of_seq. lia.
Qed.

Lemma NoDup_slots (c : N) : NoDup (slots c).
Proof.
  unfold slots. apply NoDup_fmap_2; [|apply NoDup_seq].
  intros i j Hij. lia.
Qed.

Lemma length_slots (c : N) : length (slots c) = N.to_nat c.
Proof. unfold slots. by rewrite length_fmap, length_seq. Qed.

Lemma elem_of_iter (hm : t) (s : N) :
  s ∈ iter hm ↔ valid_handle hm s = true ∧ s < capacity hm.
Proof. unfold iter. rewrite list_elem_of_filter, elem_of_slots. done. Qed.

Lemma wf_new (c : N) : wf (new c).
Proof.
  split_and!; simpl.
  - apply NoDup_slots.
  - intros s. rewrite elem_of_slots. unfold valid_handle. simpl. naive_solver.
  - intros s. unfold valid_handle. by simpl.
Qed.

(** [get_handle] takes a slot that was free, marks it live and leaves
    the other slots as they were. *)
Lemma get_handle_spec (hm hm' : t) (s : N) :
  wf hm → get_handle hm = Some (s, hm') →
  wf hm' ∧ capacity hm' = capacity hm ∧ free_list hm = s :: free_list hm' ∧
  s < capacity hm ∧ valid_handle hm s = false ∧ valid_handle hm' s = true ∧
  ∀ s', s' ≠ s → valid_handle hm' s' = valid_handle hm s'.
Proof.
  intros (Hnd & Hfree & Hrange) Hget. unfold get_handle in Hget.
  destruct (free_list hm) as [|s0 fl] eqn:Hfl; [done|].
  injection Hget as -> <-.
  apply NoDup_cons in Hnd as [Hs Hnd].
  destruct (proj1 (Hfree s)) as [Hlt Hdead]; [by left|].
  assert (Hother : ∀ s', s' ≠ s →
            N.testbit (N.setbit (live hm) s) s' = N.testbit (live hm) s').
  { intros s' Hne. by apply N.setbit_neq. }
  unfold wf, valid_handle in *. simpl. split_and!; try done.
  - intros s'. destruct (decide (s' = s)) as [->|Hne].
    + rewrite N.setbit_eq. naive_solver.
    + rewrite Hother by done. rewrite <- Hfree. rewrite elem_of_cons. naive_solver.
  - intros s'. destruct (decide (s' = s)) as [->|Hne]; [done|].
    rewrite Hother by done. apply Hrange.
  - apply N.setbit_eq.
Qed.

(** [release_handle] succeeds exactly on a live slot, which it frees. *)
Lemma release_handle_live (hm : t) (s : N) :
  valid_handle hm s = true →
  release_handle hm s = Some (mk (capacity hm) (s :: free_list hm) (N.clearbit (live hm) s)).
Proof. intros Hs. unfold release_handle. by rewrite Hs. Qed.

Lemma release_handle_dead (hm : t) (s : N) :
  valid_handle hm s = false → release_handle hm s = None.
Proof. intros Hs. unfold release_handle. by rewrite Hs. Qed.

Lemma release_handle_spec (hm hm' : t) (s : N) :
  wf hm → release_handle hm s = Some hm' →
  wf hm' ∧ capacity hm' = capacity hm ∧ free_list hm' = s :: free_list hm ∧
  s < capacity hm ∧ valid_handle hm s = true ∧ valid_handle hm' s = false ∧
  ∀ s', s' ≠ s → valid_handle hm' s' = valid_handle hm s'.
Proof.
  intros (Hnd & Hfree & Hrange) Hrel. unfold release_handle in Hrel.
  destruct (valid_handle hm s) eqn:Hlive; [|done]. simplify_eq.
  assert (Hother : ∀ s', s' ≠ s →
            N.testbit (N.clearbit (live hm) s) s' = N.testbit (live hm) s').
  { intros s' Hne. by apply N.clearbit_neq. }
  assert (Hs : s ∉ free_list hm).
  { intros Hin. apply Hfree in Hin as [_ Hdead]. congruence. }
  assert (Hlt : s < capacity hm) by by apply Hrange.
  unfold wf, valid_handle in *. simpl. split_and!; try done.
  - by apply NoDup_cons.
  - intros s'. rewrite elem_of_cons. destruct (decide (s' = s)) as [->|Hne].
    + rewrite N.clearbit_eq. naive_solver.
    + rewrite Hother by done. rewrite Hfree. naive_solver.
  - intros s'. destruct (decide (s' = s)) as [->|Hne].
    + by rewrite N.clearbit_eq.
    + rewrite Hother by done. apply Hrange.
  - apply N.clearbit_eq.
Qed.

(** A live slot leaves fewer free slots than the capacity. *)
Lemma free_list_short (hm : t) (s : N) :
  wf hm → valid_handle hm s = true →
  N.of_nat (length (free_list hm)) < capacity hm.
Proof.
  intros (Hnd & Hfree & Hrange) Hlive.
  assert (Hs : s ∉ free_list hm).
  { intros Hin. apply Hfree in Hin as [_ Hdead]. congruence. }
  assert (Hsub : s :: free_list hm ⊆+ slots (capacity hm)).
  { apply NoDup_submseteq; [by apply NoDup_cons|].
    intros s' Hin. apply elem_of_slots. apply elem_of_cons in Hin as [->|Hin].
    - by apply Hrange.
    - by apply Hfree in Hin as [? _]. }
  apply submseteq_length in Hsub. rewrite length_slots in Hsub. simpl in Hsub. lia.
Qed.
End handle_mgr.

(** ** The canonical key *)

Section key_builder.
Import MatchKeyParam.

Lemma append_valid_spec (match_key : list MatchKeyParam.t) (acc : ByteContainer) :
  append_valid match_key acc = acc ++ valid_bytes match_key.
Proof.
  unfold valid_bytes. revert acc.
  induction match_key as [|p rest IH]; intros acc; simpl.
  - by rewrite app_nil_r.
  - rewrite IH. destruct (decide (type p = VALID)) as [Hp|Hp].
    + rewrite filter_cons_True by done. rewrite Hp. simpl. by rewrite app_assoc.
    + rewrite filter_cons_False by done. by destruct (type p).
Qed.

Lemma exact_append_params_spec (match_key : list MatchKeyParam.t) (acc k : ByteContainer) :
  Exact.append_params match_key acc = Returned k →
  k = acc ++ mjoin (key <$> filter (λ p, type p ≠ VALID) match_key) ∧
  Forall (λ p, type p = EXACT ∨ type p = VALID) match_key.
Proof.
  revert acc. induction match_key as [|p rest IH]; intros acc; simpl.
  - intros [= <-]. by rewrite app_nil_r.
  - destruct (type p) eqn:Hp; try done; intros Hk; apply IH in Hk as [-> Hall].
    + rewrite filter_cons_True by congruence. simpl. rewrite app_assoc.
      split; [done|]. constructor; auto.
    + rewrite filter_cons_False by (rewrite Hp; naive_solver).
      split; [done|]. constructor; auto.
Qed.

Lemma exact_build_new_key_spec {V : Type} (u : Exact.t V) (match_key : list MatchKeyParam.t)
    (k : ByteContainer) :
  Exact.build_new_key u match_key = Returned k →
  k = canonical_key match_key ∧
  N.of_nat (length k) = Abstract.nbytes_key (Exact.base u).
Proof.
  unfold Exact.build_new_key. rewrite append_valid_spec. simpl.
  destruct (Exact.append_params _ _) as [k'|] eqn:Hk; [|done].
  apply exact_append_params_spec in Hk as [-> _].
  destruct (N.eqb_spec (N.of_nat (length (valid_bytes match_key ++
      mjoin (key <$> filter (λ p, type p ≠ VALID) match_key))))
    (Abstract.nbytes_key (Exact.base u))); [|done].
  by intros [= <-].
Qed.

Lemma ternary_append_valid_mask_fst (match_key : list MatchKeyParam.t)
    (acc accm : ByteContainer) :
  (Ternary.append_valid_mask match_key acc accm).1 = acc ++ valid_bytes match_key.
Proof.
  unfold valid_bytes. revert acc accm.
  induction match_key as [|p rest IH]; intros acc accm; simpl.
  - by rewrite app_nil_r.
  - destruct (decide (type p = VALID)) as [Hp|Hp].
    + rewrite filter_cons_True by done. rewrite Hp, IH. simpl. by rewrite app_assoc.
    + rewrite filter_cons_False by done. destruct (type p); try done; apply IH.
Qed.

Lemma ternary_append_params_fst (match_key : list MatchKeyParam.t)
    (acc accm : ByteContainer) :
  (Ternary.append_params match_key acc accm).1
  = acc ++ mjoin (key <$> filter (λ p, type p ≠ VALID) match_key).
Proof.
  revert acc accm. induction match_key as [|p rest IH]; intros acc accm; simpl.
  - by rewrite app_nil_r.
  - destruct (type p) eqn:Hp.
    1-3: rewrite filter_cons_True by congruence; rewrite IH; simpl; by rewrite app_assoc.
    rewrite filter_cons_False by (rewrite Hp; naive_solver). apply IH.
Qed.

Lemma ternary_build_new_key_spec {V : Type} (u : Ternary.t V)
    (match_key : list MatchKeyParam.t) (k m : ByteContainer) :
  Ternary.build_new_key u match_key = Returned (k, m) →
  k = canonical_key match_key.
Proof.
  unfold Ternary.build_new_key.
  pose proof (ternary_append_valid_mask_fst match_key [] []) as H1.
  destruct (Ternary.append_valid_mask match_key [] []) as [k1 m1]. simpl in H1.
  pose proof (ternary_append_params_fst match_key k1 m1) as H2.
  destruct (Ternary.append_params match_key k1 m1) as [k2 m2]. simpl in H2.
  repeat case_match; try done. intros [= <- <-]. by subst.
Qed.

Lemma lpm_append_params_spec (match_key : list MatchKeyParam.t) (acc k : ByteContainer)
    (p0 p' : Z) (l0 l' : option MatchKeyParam.t) :
  LPM.append_params match_key acc p0 l0 = Returned (k, p', l') →
  k = acc ++ mjoin (key <$> filter (λ p, type p = EXACT) match_key) ∧
  match l0 with
  | Some q => l' = Some q ∧ filter (λ p, type p = LPM) match_key = []
  | None => filter (λ p, type p = LPM) match_key = option_list l'
  end.
Proof.
  revert acc p0 l0. induction match_key as [|p rest IH]; intros acc p0 l0; simpl.
  - intros [= <- <- <-]. rewrite app_nil_r. by destruct l0.
  - destruct (type p) eqn:Hp; try done.
    + intros Hk. apply IH in Hk as [-> Hl].
      rewrite filter_cons_True by done. rewrite (filter_cons_False _ p) by congruence.
      simpl. by rewrite app_assoc.
    + destruct l0 as [q|]; [done|]. intros Hk. apply IH in Hk as [-> [-> Hl]].
      rewrite (filter_cons_False _ p) by congruence.
      rewrite filter_cons_True by done. by rewrite Hl.
    + intros Hk. apply IH in Hk as [-> Hl].
      by rewrite !(filter_cons_False _ p) by congruence.
Qed.

Lemma lpm_build_new_key_spec {V : Type} (u : LPM.t V) (match_key : list MatchKeyParam.t)
    (k : ByteContainer) (p : Z) :
  LPM.build_new_key u match_key = Returned (k, p) →
  k = lpm_canonical_key match_key.
Proof.
  unfold LPM.build_new_key, lpm_canonical_key. rewrite append_valid_spec. simpl.
  destruct (LPM.append_params _ _ _ _) as [[[k1 p1] [q|]]|] eqn:Hk; try done.
  apply lpm_append_params_spec in Hk as [-> Hl]. rewrite Hl. simpl.
  case_match; [|done]. intros [= <- <-]. by rewrite app_nil_r, app_assoc.
Qed.
End key_builder.

(** ** MatchUnitAbstract *)

Section abstract_unit.
Import Abstract.

Lemma get_and_set_handle_success (u u' : Abstract.t) (s : N) :
  get_and_set_handle u = inr (u', s) →
  num_entries u < size u ∧
  HandleMgr.get_handle (handles u) = Some (s, handles u') ∧
  size u' = size u ∧ nbytes_key u' = nbytes_key u ∧
  num_entries u' = wrap64 (num_entries u + 1).
Proof.
  unfold get_and_set_handle. destruct (N.leb_spec (size u) (num_entries u)); [done|].
  destruct (HandleMgr.get_handle (handles u)) as [[s0 hm]|]; [|done].
  by intros [= <- <-].
Qed.

Lemma get_and_set_handle_failure (u : Abstract.t) (status : MatchErrorCode) :
  get_and_set_handle u = inl status → status = TABLE_FULL ∨ status = ERROR.
Proof.
  unfold get_and_set_handle. repeat case_match; naive_solver.
Qed.

Lemma unset_handle_live (u : Abstract.t) (s : N) :
  valid_handle_ u s = true →
  unset_handle u s =
    (SUCCESS,
     mk (size u) (nbytes_key u) (wrap64 (num_entries u + (2 ^ 64 - 1)))
        (HandleMgr.mk (HandleMgr.capacity (handles u)) (s :: HandleMgr.free_list (handles u))
                      (N.clearbit (HandleMgr.live (handles u)) s))).
Proof.
  intros Hs. unfold unset_handle. by rewrite (release_handle_live _ _ Hs).
Qed.

(** The public [valid_handle] applied to an already decoded handle tests
    the same slot as [valid_handle_]. *)
Lemma valid_handle_decoded (u : Abstract.t) (h : N) :
  valid_handle u (HANDLE_INTERNAL h) = valid_handle_ u (HANDLE_INTERNAL h).
Proof. unfold valid_handle. by rewrite HANDLE_INTERNAL_idem. Qed.
End abstract_unit.

(** ** MatchUnitExact: the invariant holds in every reachable state *)

Section exact_unit.
Context {V : Type} `{!Inhabited V}.
Import Exact.

Implicit Types (u : Exact.t V) (v : V).

Lemma exact_wf_new (size nbytes_key : N) :
  size ≤ 2 ^ 32 → wf (new (V:=V) size nbytes_key).
Proof.
  intros Hsize. unfold wf, new. simpl. split_and!; try done.
  - apply wf_new.
  - by rewrite length_replicate.
  - rewrite length_slots. lia.
Qed.

(** What a successful [add_entry] does, in terms of the state before. *)
Lemma exact_add_entry_success u match_key v priority u' (oh : option N) :
  add_entry u match_key v priority = Returned (SUCCESS, u', oh) →
  ∃ b s,
    build_new_key u match_key = Returned (canonical_key match_key) ∧
    Abstract.get_and_set_handle (base u) = inr (b, s) ∧
    oh = Some (HANDLE_SET (version (entries u !!! N.to_nat s)) s) ∧
    u' = mk b
            (<[N.to_nat s := mkEntry (canonical_key match_key) v
                               (version (entries u !!! N.to_nat s))]> (entries u))
            (<[canonical_key match_key := s]> (entries_map u)).
Proof.
  unfold add_entry. destruct (build_new_key u match_key) as [k|] eqn:Hk; [|done].
  pose proof (exact_build_new_key_spec _ _ _ Hk) as [-> _].
  destruct (Abstract.get_and_set_handle (base u)) as [status|[b s]] eqn:Hget.
  - intros [= -> <- <-]. by apply get_and_set_handle_failure in Hget as [?|?].
  - intros [= <- <-]. by exists b, s.
Qed.

Lemma exact_add_entry_failure u match_key v priority status u' (oh : option N) :
  add_entry u match_key v priority = Returned (status, u', oh) →
  status ≠ SUCCESS → u' = u ∧ oh = None ∧ (status = TABLE_FULL ∨ status = ERROR).
Proof.
  unfold add_entry. destruct (build_new_key u match_key) as [k|]; [|done].
  destruct (Abstract.get_and_set_handle (base u)) as [st|[b s]] eqn:Hget.
  - intros [= -> <- <-] _. by apply get_and_set_handle_failure in Hget.
  - by intros [= <- <- <-].
Qed.

Lemma exact_wf_in_range u (s : N) :
  wf u → Abstract.valid_handle_ (base u) s = true →
  (N.to_nat s < length (entries u))%nat ∧ s < 2 ^ 32.
Proof.
  intros (Hhm & Hcap & Hlen & Hsize & _) Hs.
  destruct Hhm as (_ & _ & Hrange). apply Hrange in Hs. lia.
Qed.

Lemma exact_wf_add_entry u match_key v priority status u' (oh : option N) :
  wf u → add_entry u match_key v priority = Returned (status, u', oh) → wf u'.
Proof.
  intros Hwf Hadd. destruct (decide (status = SUCCESS)) as [->|Hne]; last first.
  { by apply exact_add_entry_failure in Hadd as [-> _]. }
  apply exact_add_entry_success in Hadd as (b & s & _ & Hget & _ & ->).
  destruct Hwf as (Hhm & Hcap & Hlen & Hsize & Hnum & Hmap).
  apply get_and_set_handle_success in Hget as (Hfull & Hget & Hsz & _ & Hn).
  apply get_handle_spec in Hget as (Hhm' & Hcap' & Hfl & Hlt & Hdead & Hlive & Hother);
    [|done].
  unfold wf, Abstract.valid_handle_ in *. simpl. split_and!; try done.
  - congruence.
  - rewrite length_insert. congruence.
  - congruence.
  - rewrite Hn, Hsz. rewrite Hfl in Hnum. simpl in Hnum.
    unfold wrap64. rewrite N.mod_small; lia.
  - intros k s'. rewrite lookup_insert. case_decide as Hk.
    + intros [= <-]. split; [done|].
      rewrite list_lookup_total_insert_eq by lia. done.
    + intros Hs'. apply Hmap in Hs' as [Hl Hkey].
      assert (s' ≠ s) by congruence.
      rewrite Hother by done. split; [done|].
      rewrite list_lookup_total_insert_ne by lia. done.
Qed.

(** What a successful [delete_entry] does, in terms of the state before. *)
Lemma exact_delete_entry_cases u (handle : N) :
  let s := HANDLE_INTERNAL handle in
  let e := entries u !!! N.to_nat s in
  (Abstract.valid_handle_ (base u) s = false ∧
   delete_entry u handle = (INVALID_HANDLE, u)) ∨
  (Abstract.valid_handle_ (base u) s = true ∧ HANDLE_VERSION handle ≠ version e ∧
   delete_entry u handle = (EXPIRED_HANDLE, u)) ∨
  (Abstract.valid_handle_ (base u) s = true ∧ HANDLE_VERSION handle = version e ∧
   delete_entry u handle =
     (SUCCESS,
      mk (Abstract.unset_handle (base u) s).2
         (<[N.to_nat s := mkEntry (key e) (value e) (wrap32 (version e + 1))]> (entries u))
         (delete (key e) (entries_map u)))).
Proof.
  intros s e. unfold delete_entry. fold s. fold e.
  destruct (Abstract.valid_handle_ (base u) s) eqn:Hlive; cbn [negb]; [|by left].
  right. destruct (N.eqb_spec (HANDLE_VERSION handle) (version e)); cbn [negb]; [|by left].
  right. rewrite (unset_handle_live _ _ Hlive). cbn [snd]. done.
Qed.

Lemma exact_wf_delete_entry u (handle : N) :
  wf u → wf (delete_entry u handle).2.
Proof.
  intros Hwf.
  destruct (exact_delete_entry_cases u handle) as [[_ ->]|[(_ & _ & ->)|(Hlive & _ & ->)]];
    try done.
  set (s := HANDLE_INTERNAL handle) in *. simpl.
  rewrite (unset_handle_live _ _ Hlive). simpl.
  destruct Hwf as (Hhm & Hcap & Hlen & Hsize & Hnum & Hmap).
  pose proof (free_list_short _ _ Hhm Hlive) as Hshort.
  pose proof (release_handle_live _ _ Hlive) as Hrel.
  apply release_handle_spec in Hrel as (Hhm' & _ & _ & Hlt & _ & Hdead & Hother); [|done].
  unfold wf, Abstract.valid_handle_ in *. simpl in *. split_and!; try done.
  - rewrite length_insert. congruence.
  - unfold wrap64.
    replace (Abstract.num_entries (base u) + (2 ^ 64 - 1))
      with (Abstract.num_entries (base u) - 1 + 1 * 2 ^ 64) by lia.
    rewrite N.Div0.mod_add, N.mod_small; lia.
  - intros k s'. rewrite lookup_delete. case_decide as Hk; [done|].
    intros Hs'. apply Hmap in Hs' as [Hl Hkey].
    assert (s' ≠ s) by congruence.
    rewrite Hother by done. split; [done|].
    rewrite list_lookup_total_insert_ne by lia. done.
Qed.

Lemma exact_wf_modify_entry u (handle : N) v :
  wf u → wf (modify_entry u handle v).2.
Proof.
  intros Hwf. unfold modify_entry. repeat case_match; try done. simpl.
  destruct Hwf as (Hhm & Hcap & Hlen & Hsize & Hnum & Hmap).
  unfold wf. simpl. split_and!; try done.
  - by rewrite length_insert.
  - intros k s Hs. apply Hmap in Hs as [Hl Hkey]. split; [done|].
    destruct (decide (s = HANDLE_INTERNAL handle)) as [->|Hne].
    + assert (N.to_nat (HANDLE_INTERNAL handle) < length (entries u))%nat.
      { destruct Hhm as (_ & _ & Hrange). apply Hrange in Hl. lia. }
      rewrite list_lookup_total_insert_eq by done. done.
    + rewrite list_lookup_total_insert_ne by lia. done.
Qed.
End exact_unit.

(** ** MatchUnitExact: lookups after [add_entry] *)

Section exact_lookup.
Context {V : Type} `{!Inhabited V}.
Import Exact.

Implicit Types (u : Exact.t V) (v : V).

(** In a consistent state, a key that no live entry holds is not found. *)
Lemma exact_lookup_key_miss u (k : ByteContainer) :
  wf u →
  (∀ s, Abstract.valid_handle_ (base u) s = true → key (entries u !!! N.to_nat s) ≠ k) →
  lookup_key u k = None.
Proof.
  intros (_ & _ & _ & _ & _ & Hmap) Hk. unfold lookup_key.
  destruct (entries_map u !! k) as [s|] eqn:Hs; [|done].
  apply Hmap in Hs as [Hlive Hkey]. by apply Hk in Hlive.
Qed.

(** The slot, liveness and bookkeeping effects of a successful
    [add_entry] in a consistent state. *)
Lemma exact_add_entry_effects u match_key v priority u' (h : N) :
  wf u →
  add_entry u match_key v priority = Returned (SUCCESS, u', Some h) →
  let s := HANDLE_SLOT h in
  h = HANDLE_SET (version (entries u !!! N.to_nat s)) s ∧
  (N.to_nat s < length (entries u))%nat ∧
  Abstract.valid_handle_ (base u) s = false ∧
  Abstract.valid_handle_ (base u') s = true ∧
  (∀ s', s' ≠ s → Abstract.valid_handle_ (base u') s' = Abstract.valid_handle_ (base u) s') ∧
  Abstract.num_entries (base u') = Abstract.num_entries (base u) + 1 ∧
  entries u' = <[N.to_nat s := mkEntry (canonical_key match_key) v
                                 (version (entries u !!! N.to_nat s))]> (entries u) ∧
  entries_map u' = <[canonical_key match_key := s]> (entries_map u).
Proof.
  intros Hwf Hadd.
  apply exact_add_entry_success in Hadd as (b & s & _ & Hget & [= ->] & ->).
  destruct Hwf as (Hhm & Hcap & Hlen & Hsize & Hnum & Hmap).
  apply get_and_set_handle_success in Hget as (Hfull & Hget & Hsz & _ & Hn).
  apply get_handle_spec in Hget as (Hhm' & Hcap' & Hfl & Hlt & Hdead & Hlive & Hother);
    [|done].
  assert (Hs32 : s < 2 ^ 32) by lia.
  cbv zeta. rewrite (HANDLE_SLOT_SET _ _ Hs32).
  unfold Abstract.valid_handle_. cbn [base entries entries_map].
  split_and!; try done.
  - lia.
  - rewrite Hn. unfold wrap64. rewrite N.mod_small; lia.
Qed.
End exact_lookup.

(** ** Every state the exact unit reaches is consistent *)

Section exact_reachable.
Context {V : Type} `{!Inhabited V}.
Import MatchUnit.

Lemma exact_get_value_state (u : Exact.t V) (handle : N) :
  (Exact.get_value u handle).1.2 = u.
Proof. unfold Exact.get_value. by repeat case_match. Qed.

Lemma exact_wf_step (u : Exact.t V) (c : call V) (status : MatchErrorCode) (m' : MatchUnit.t V) :
  Exact.wf u → step (OfExact u) c = Returned (status, m') →
  ∃ u', m' = OfExact u' ∧ Exact.wf u'.
Proof.
  intros Hwf. destruct c as [match_key v priority|handle|handle v|handle]; cbn [step].
  - cbn [add_entry].
    destruct (Exact.add_entry u match_key v priority) as [[[st u'] oh]|] eqn:Hadd; [|done].
    intros [= <- <-]. exists u'. split; [done|]. by eapply exact_wf_add_entry.
  - cbn [delete_entry]. pose proof (exact_wf_delete_entry u handle Hwf) as Hwf'.
    destruct (Exact.delete_entry u handle) as [st u']. intros [= <- <-]. by exists u'.
  - cbn [modify_entry]. pose proof (exact_wf_modify_entry u handle v Hwf) as Hwf'.
    destruct (Exact.modify_entry u handle v) as [st u']. intros [= <- <-]. by exists u'.
  - cbn [get_value]. rewrite (surjective_pairing (Exact.get_value u handle)).
    rewrite (surjective_pairing (Exact.get_value u handle).1).
    rewrite exact_get_value_state. intros [= <- <-]. by exists u.
Qed.

Lemma exact_wf_run (u : Exact.t V) (calls : list (call V)) (m' : MatchUnit.t V) :
  Exact.wf u → run (OfExact u) calls = Returned m' →
  ∃ u', m' = OfExact u' ∧ Exact.wf u'.
Proof.
  revert u. induction calls as [|c rest IH]; intros u Hwf; cbn [run].
  - intros [= <-]. by exists u.
  - destruct (step (OfExact u) c) as [[st m1]|] eqn:Hstep; [|done].
    apply exact_wf_step in Hstep as (u1 & -> & Hwf1); [|done]. by apply IH.
Qed.
End exact_reachable.

(** ** MatchUnitExact: insertion, lookup and duplicate keys *)

Section exact_claims.
Context {V : Type} `{!Inhabited V}.
Import Exact.

Implicit Types (u : Exact.t V) (v : V).

(** C2 (amended). In a consistent state of the exact unit, when
    [add_entry(params, v)] succeeds and writes out the handle [h], then
    [lookup_key] on the canonical key of [params] returns the pair of the
    slot [h & 0xffffffff] and [v] (the slot, not the 64-bit handle with the
    version in its high bits), and [lookup_key] on a key that no live
    entry holds returns the empty result. *)
Theorem exact_lookup_after_add_entry u match_key v priority u' (h : N) :
  wf u →
  add_entry u match_key v priority = Returned (SUCCESS, u', Some h) →
  lookup_key u' (canonical_key match_key) = Some (HANDLE_SLOT h, v) ∧
  ∀ k, (∀ s, Abstract.valid_handle_ (base u') s = true →
             key (entries u' !!! N.to_nat s) ≠ k) →
       lookup_key u' k = None.
Proof.
  intros Hwf Hadd. split.
  - destruct (exact_add_entry_effects _ _ _ _ _ _ Hwf Hadd)
      as (_ & Hlt & _ & _ & _ & _ & Hentries & Hmap).
    unfold lookup_key. rewrite Hmap, lookup_insert_eq, Hentries.
    by rewrite list_lookup_total_insert_eq.
  - intros k Hk. apply exact_lookup_key_miss; [|done].
    by eapply exact_wf_add_entry.
Qed.

(** C8. In a consistent state of the exact unit that is not full, when
    the key built from the parameters is already bound to the slot
    [s_old]: [add_entry] succeeds on a slot that was free, the key is now
    bound to the new slot, and the old slot is not released: it stays
    live, [num_entries] has grown by one, and no [lookup_key] returns the
    old slot any more. *)
Theorem exact_add_entry_duplicate_key u match_key v priority (k : ByteContainer) (s_old : N) :
  wf u →
  build_new_key u match_key = Returned k →
  entries_map u !! k = Some s_old →
  Abstract.num_entries (base u) < Abstract.size (base u) →
  ∃ u' h,
    add_entry u match_key v priority = Returned (SUCCESS, u', Some h) ∧
    Abstract.valid_handle_ (base u) (HANDLE_SLOT h) = false ∧
    HANDLE_SLOT h ≠ s_old ∧
    entries_map u' !! k = Some (HANDLE_SLOT h) ∧
    Abstract.valid_handle_ (base u') s_old = true ∧
    Abstract.num_entries (base u') = Abstract.num_entries (base u) + 1 ∧
    ∀ k' v', lookup_key u' k' ≠ Some (s_old, v').
Proof.
  intros Hwf Hk Hold Hfull.
  pose proof (exact_build_new_key_spec _ _ _ Hk) as [-> _].
  assert (∃ u' h, add_entry u match_key v priority = Returned (SUCCESS, u', Some h))
    as (u' & h & Hadd).
  { unfold add_entry. rewrite Hk. unfold Abstract.get_and_set_handle.
    destruct (N.leb_spec (Abstract.size (base u)) (Abstract.num_entries (base u))); [lia|].
    destruct Hwf as (_ & _ & _ & _ & Hnum & _). unfold HandleMgr.get_handle.
    destruct (HandleMgr.free_list (Abstract.handles (base u))) as [|s fl].
    - simpl in Hnum. lia.
    - eauto. }
  exists u', h. split; [done|].
  destruct (exact_add_entry_effects _ _ _ _ _ _ Hwf Hadd)
    as (_ & Hlt & Hdead & Hlive & Hother & Hn & Hentries & Hmap).
  destruct Hwf as (_ & _ & _ & _ & _ & Hinv).
  destruct (Hinv _ _ Hold) as [Hold_live Hold_key].
  assert (Hne : HANDLE_SLOT h ≠ s_old) by congruence.
  split_and!; try done.
  - by rewrite Hmap, lookup_insert_eq.
  - by rewrite Hother.
  - intros k' v'. unfold lookup_key. rewrite Hmap, lookup_insert.
    case_decide as Hk'; [congruence|].
    destruct (entries_map u !! k') as [s|] eqn:Hs; [|done].
    intros [= -> _]. apply Hinv in Hs as [_ Hkey]. congruence.
Qed.
End exact_claims.

Section exact_claims_examples.
Import MatchKeyParam MatchUnit Scenario.

(** The states of the scenarios are consistent. *)
Lemma exact_deleted_wf : ∃ u, exact_deleted = Returned (OfExact u) ∧ Exact.wf u.
Proof.
  destruct exact_deleted as [m|] eqn:Hrun; [|by vm_compute in Hrun].
  apply exact_wf_run in Hrun as (u & -> & Hwf); [eauto|]. apply exact_wf_new. lia.
Qed.

Lemma exact_one_wf : ∃ u, exact_one = Returned (OfExact u) ∧ Exact.wf u.
Proof.
  destruct exact_one as [m|] eqn:Hrun; [|by vm_compute in Hrun].
  apply exact_wf_run in Hrun as (u & -> & Hwf); [eauto|]. apply exact_wf_new. lia.
Qed.

(** C2, counterexample: after an insertion and its deletion the next
    insertion takes slot 0 again, with version 1, and writes out the
    handle [2^32]; the lookup of its key returns the slot 0, not that
    handle. *)
Lemma exact_lookup_after_add_entry_not_handle :
  ∃ u u' h,
    exact_deleted = Returned (OfExact u) ∧ Exact.wf u ∧
    Exact.add_entry u key_a 8 0 = Returned (SUCCESS, u', Some h) ∧
    h = 2 ^ 32 ∧
    Exact.lookup_key u' (canonical_key key_a) = Some (0, 8) ∧
    Exact.lookup_key u' (canonical_key key_a) ≠ Some (h, 8).
Proof.
  destruct exact_deleted_wf as (u & Hu & Hwf). exists u.
  vm_compute in Hu. injection Hu as <-.
  eexists _, _. split_and!; [by vm_compute|done|by vm_compute..].
Qed.

(** C2, witness: the first insertion into a new unit of capacity 4. *)
Lemma exact_lookup_after_add_entry_witness :
  ∃ u' h,
    Exact.wf (Exact.new (V:=N) 4 2) ∧
    Exact.add_entry (Exact.new 4 2) key_a 7 0 = Returned (SUCCESS, u', Some h) ∧
    Exact.lookup_key u' (canonical_key key_a) = Some (HANDLE_SLOT h, 7).
Proof.
  assert (Hwf : Exact.wf (Exact.new (V:=N) 4 2)) by (apply exact_wf_new; lia).
  destruct (Exact.add_entry (Exact.new (V:=N) 4 2) key_a 7 0) as [[[st u'] [h|]]|] eqn:Hadd;
    try by vm_compute in Hadd.
  assert (st = SUCCESS) as -> by (vm_compute in Hadd; congruence).
  exists u', h. split; [done|]. split; [done|].
  exact (proj1 (exact_lookup_after_add_entry _ key_a 7 0%Z u' h Hwf Hadd)).
Defined.

(** C8, witness: the key of the only entry, on slot 0, is inserted a
    second time into a unit of capacity 2. *)
Lemma exact_add_entry_duplicate_key_witness :
  ∃ u u' h,
    exact_one = Returned (OfExact u) ∧ Exact.wf u ∧
    Exact.entries_map u !! [0xAB; 0xCD] = Some 0 ∧
    Exact.add_entry u key_a 8 0 = Returned (SUCCESS, u', Some h) ∧
    HANDLE_SLOT h ≠ 0 ∧
    Abstract.valid_handle_ (Exact.base u') 0 = true ∧
    Abstract.num_entries (Exact.base u') = 2.
Proof.
  destruct exact_one_wf as (u & Hu & Hwf). exists u.
  vm_compute in Hu. injection Hu as <-.
  destruct (exact_add_entry_duplicate_key _ key_a 8 0%Z [0xAB; 0xCD] 0 Hwf)
    as (u' & h & Hadd & _ & Hne & _ & Hlive & Hn & _);
    [by vm_compute | by vm_compute | by vm_compute |].
  exists u', h. split_and!; try done; by vm_compute.
Defined.
End exact_claims_examples.

(** ** MatchUnitTernary: the scan of [lookup_key] *)

Section ternary_scan.
Context {V : Type} `{!Inhabited V}.
Import Ternary.

Implicit Types (u : Ternary.t V) (k : ByteContainer) (s : N).

(** The byte loop decides matching as the specification words it. *)
Lemma bytes_match_spec u s k :
  bytes_match (Abstract.nbytes_key (base u)) (entries u !!! N.to_nat s) k = true
  ↔ matches u s k.
Proof.
  unfold bytes_match, matches. rewrite forallb_forall. split.
  - intros Hall i Hi. apply N.eqb_eq, Hall, in_seq. lia.
  - intros Hall i Hi. apply in_seq in Hi. apply N.eqb_eq, Hall. lia.
Qed.

(** The outer loop, from any state of its variables: either nothing
    visited beats the running maximum, or the result is the first visited
    entry that matches with the greatest priority above it. *)
Lemma scan_spec u k (its : list N) (max_priority : Z) (max : option (N * Entry V)) :
  (scan u k its max_priority max = max ∧
   ∀ s, s ∈ its → matches u s k → (priority_at u s ≤ max_priority)%Z)
  ∨
  (∃ l1 s l2,
     its = l1 ++ s :: l2 ∧
     scan u k its max_priority max = Some (s, entries u !!! N.to_nat s) ∧
     matches u s k ∧ (max_priority < priority_at u s)%Z ∧
     (∀ s', s' ∈ l1 → matches u s' k → (priority_at u s' < priority_at u s)%Z) ∧
     (∀ s', s' ∈ l2 → matches u s' k → (priority_at u s' ≤ priority_at u s)%Z)).
Proof.
  revert max_priority max.
  induction its as [|it rest IH]; intros max_priority max; cbn [scan].
  { left. split; [done|]. intros s Hs. by apply elem_of_nil in Hs. }
  fold (priority_at u it).
  destruct (Z.leb_spec (priority_at u it) max_priority) as [Hle|Hgt].
  - (* skipped: the priority does not exceed the running maximum *)
    destruct (IH max_priority max) as [[Hr Hall]|(l1 & s & l2 & -> & Hr & Hm & Hp & H1 & H2)].
    + left. split; [done|]. intros s [->|Hs]%elem_of_cons Hm; auto.
    + right. exists (it :: l1), s, l2. split_and!; try done.
      intros s' [->|Hs']%elem_of_cons Hm'; [lia|auto].
  - destruct (bytes_match _ _ k) eqn:Hmatch.
    + (* a match above the running maximum becomes the new maximum *)
      apply bytes_match_spec in Hmatch.
      destruct (IH (priority_at u it) (Some (it, entries u !!! N.to_nat it)))
        as [[Hr Hall]|(l1 & s & l2 & -> & Hr & Hm & Hp & H1 & H2)].
      * right. exists [], it, rest. split_and!; try done.
        intros s' Hs'. by apply elem_of_nil in Hs'.
      * right. exists (it :: l1), s, l2. split_and!; try done; [lia|].
        intros s' [->|Hs']%elem_of_cons Hm'; [lia|auto].
    + (* no match *)
      assert (Hno : ¬ matches u it k).
      { intros Hm. apply bytes_match_spec in Hm. congruence. }
      destruct (IH max_priority max) as [[Hr Hall]|(l1 & s & l2 & -> & Hr & Hm & Hp & H1 & H2)].
      * left. split; [done|]. intros s [->|Hs]%elem_of_cons Hm; [done|auto].
      * right. exists (it :: l1), s, l2. split_and!; try done.
        intros s' [->|Hs']%elem_of_cons Hm'; [done|auto].
Qed.

(** The slots visited are the live slots below the capacity. *)
Lemma elem_of_visited u s :
  s ∈ visited u ↔
  Abstract.valid_handle_ (base u) s = true ∧
  s < HandleMgr.capacity (Abstract.handles (base u)).
Proof. apply elem_of_iter. Qed.

(** C3 (amended). In the ternary unit an entry matches the key [k] iff
    [entry.key[i] == (k[i] & entry.mask[i])] at every byte index below
    [nbytes_key]. [lookup_key] returns the empty result iff no visited
    (live) entry that matches has a priority above 0; otherwise it returns
    a visited entry that matches, whose priority is above 0 and greatest
    among the matching visited entries, and that is the first in the
    iteration order of the allocator to attain that priority. *)
Theorem ternary_lookup_key_spec u k :
  match lookup_key u k with
  | None => ∀ s, s ∈ visited u → matches u s k → (priority_at u s ≤ 0)%Z
  | Some (s, v) =>
      ∃ l1 l2,
        visited u = l1 ++ s :: l2 ∧
        matches u s k ∧ (0 < priority_at u s)%Z ∧ v = value_at u s ∧
        (∀ s', s' ∈ visited u → matches u s' k → (priority_at u s' ≤ priority_at u s)%Z) ∧
        (∀ s', s' ∈ l1 → matches u s' k → (priority_at u s' < priority_at u s)%Z)
  end.
Proof.
  unfold lookup_key. fold (visited u).
  destruct (scan_spec u k (visited u) 0 None)
    as [[-> Hall]|(l1 & s & l2 & Hsplit & -> & Hm & Hp & H1 & H2)]; [done|].
  exists l1, l2. split_and!; try done.
  intros s'. rewrite Hsplit, elem_of_app, elem_of_cons.
  intros [Hs'|[->|Hs']] Hm'; [|lia|auto].
  specialize (H1 _ Hs' Hm'). lia.
Qed.

(** C9. [lookup_key] of the ternary unit never returns an entry whose
    priority is 0 or negative: the running maximum starts at 0 and an
    entry is skipped unless its priority exceeds it. *)
Theorem ternary_lookup_key_priority_positive u k s (v : V) :
  lookup_key u k = Some (s, v) → (0 < priority_at u s)%Z.
Proof.
  unfold lookup_key. fold (visited u).
  destruct (scan_spec u k (visited u) 0 None)
    as [[-> Hall]|(l1 & s' & l2 & Hsplit & -> & Hm & Hp & H1 & H2)]; [done|].
  by intros [= <- _].
Qed.
End ternary_scan.

Section ternary_claims_examples.
Import MatchKeyParam MatchUnit Scenario.

(** C3, counterexample: the only entry matches the key [0x1234] and is
    live, but its priority is 0 and the lookup returns the empty result. *)
Lemma ternary_lookup_key_misses_priority_zero :
  ∃ u, ternary_zero = Returned (OfTernary u) ∧
       0 ∈ Ternary.visited u ∧ Ternary.matches u 0 [0x12; 0x34] ∧
       Ternary.lookup_key u [0x12; 0x34] = None.
Proof.
  eexists. split; [by vm_compute|]. split_and!.
  - apply elem_of_visited. by vm_compute.
  - apply bytes_match_spec. by vm_compute.
  - by vm_compute.
Qed.

Lemma ternary_lookup_key_priority_positive_witness :
  ∃ u, ternary_two = Returned (OfTernary u) ∧
       Ternary.lookup_key u [0x12; 0x34] = Some (0, 7) ∧
       (0 < Ternary.priority_at u 0)%Z.
Proof.
  eexists. split; [by vm_compute|]. split; [by vm_compute|].
  apply (ternary_lookup_key_priority_positive _ [0x12; 0x34] 0 7). by vm_compute.
Defined.
End ternary_claims_examples.

(** ** The handle check of the control-plane operations *)

Section handle_check.
Context {V : Type} `{!Inhabited V}.
Import MatchUnit.

Lemma exact_delete_entry_error (u : Exact.t V) (handle : N) :
  handle_error (Exact.delete_entry u handle).1 → (Exact.delete_entry u handle).2 = u.
Proof.
  unfold Exact.delete_entry. handle_check Hlive Hver; try done.
  rewrite (unset_handle_live _ _ Hlive). by intros [?|?].
Qed.

Lemma lpm_delete_entry_error (u : LPM.t V) (handle : N) (status : MatchErrorCode) (u' : LPM.t V) :
  LPM.delete_entry u handle = Returned (status, u') → handle_error status → u' = u.
Proof.
  unfold LPM.delete_entry. handle_check Hlive Hver; try by intros [= <- <-].
  rewrite (unset_handle_live _ _ Hlive). case_match; [|done].
  by intros [= <- <-] [?|?].
Qed.

Lemma ternary_delete_entry_error (u : Ternary.t V) (handle : N) :
  handle_error (Ternary.delete_entry u handle).1 → (Ternary.delete_entry u handle).2 = u.
Proof.
  unfold Ternary.delete_entry. handle_check Hlive Hver; try done.
  rewrite (unset_handle_live _ _ Hlive). by intros [?|?].
Qed.

Lemma exact_modify_entry_error (u : Exact.t V) (handle : N) (v : V) :
  handle_error (Exact.modify_entry u handle v).1 → (Exact.modify_entry u handle v).2 = u.
Proof. unfold Exact.modify_entry. handle_check Hlive Hver; try done. by intros [?|?]. Qed.

Lemma lpm_modify_entry_error (u : LPM.t V) (handle : N) (v : V) :
  handle_error (LPM.modify_entry u handle v).1 → (LPM.modify_entry u handle v).2 = u.
Proof. unfold LPM.modify_entry. handle_check Hlive Hver; try done. by intros [?|?]. Qed.

Lemma ternary_modify_entry_error (u : Ternary.t V) (handle : N) (v : V) :
  handle_error (Ternary.modify_entry u handle v).1 → (Ternary.modify_entry u handle v).2 = u.
Proof.
  unfold Ternary.modify_entry. rewrite valid_handle_decoded.
  handle_check Hlive Hver; try done. by intros [?|?].
Qed.

Lemma lpm_get_value_state (u : LPM.t V) (handle : N) : (LPM.get_value u handle).1.2 = u.
Proof. unfold LPM.get_value. by repeat case_match. Qed.

Lemma ternary_get_value_state (u : Ternary.t V) (handle : N) :
  (Ternary.get_value u handle).1.2 = u.
Proof. unfold Ternary.get_value. by repeat case_match. Qed.

Lemma get_value_state (m : MatchUnit.t V) (handle : N) : (get_value m handle).1.2 = m.
Proof.
  destruct m as [u|u|u]; cbn [get_value].
  - pose proof (exact_get_value_state u handle) as H.
    destruct (Exact.get_value u handle) as [[st u'] v]. simpl in *. by subst.
  - pose proof (lpm_get_value_state u handle) as H.
    destruct (LPM.get_value u handle) as [[st u'] v]. simpl in *. by subst.
  - pose proof (ternary_get_value_state u handle) as H.
    destruct (Ternary.get_value u handle) as [[st u'] v]. simpl in *. by subst.
Qed.

Lemma add_entry_status (m : MatchUnit.t V) match_key (v : V) priority status m' oh :
  add_entry m match_key v priority = Returned (status, m', oh) →
  status = SUCCESS ∨ status = TABLE_FULL ∨ status = ERROR.
Proof.
  destruct m as [u|u|u]; cbn [add_entry].
  - unfold Exact.add_entry. destruct (Exact.build_new_key u match_key); [|done].
    destruct (Abstract.get_and_set_handle _) as [st|[b s]] eqn:Hget.
    + intros [= <- _ _]. apply get_and_set_handle_failure in Hget. tauto.
    + intros [= <- _ _]. tauto.
  - unfold LPM.add_entry. destruct (LPM.build_new_key u match_key) as [[k p]|]; [|done].
    destruct (Abstract.get_and_set_handle _) as [st|[b s]] eqn:Hget.
    + intros [= <- _ _]. apply get_and_set_handle_failure in Hget. tauto.
    + intros [= <- _ _]. tauto.
  - unfold Ternary.add_entry. destruct (Ternary.build_new_key u match_key) as [[k p]|]; [|done].
    destruct (Abstract.get_and_set_handle _) as [st|[b s]] eqn:Hget.
    + intros [= <- _ _]. apply get_and_set_handle_failure in Hget. tauto.
    + intros [= <- _ _]. tauto.
Qed.

(** C10. For every variant, whenever [delete_entry], [modify_entry] or
    [get_value] returns [INVALID_HANDLE] or [EXPIRED_HANDLE], the state of
    the match unit after the call is the state before it: the entries, the
    exact map, the LPM trie, the live slots and [num_entries]. *)
Theorem handle_error_leaves_state_unchanged (m : MatchUnit.t V) (c : call V)
    (status : MatchErrorCode) (m' : MatchUnit.t V) :
  step m c = Returned (status, m') → handle_error status → m' = m.
Proof.
  destruct c as [match_key v priority|handle|handle v|handle]; cbn [step].
  - destruct (add_entry m match_key v priority) as [[[st m1] oh]|] eqn:Hadd; [|done].
    intros [= <- <-] [?|?]; apply add_entry_status in Hadd; naive_solver.
  - destruct m as [u|u|u]; cbn [delete_entry].
    + pose proof (exact_delete_entry_error u handle) as Herr.
      destruct (Exact.delete_entry u handle) as [st u']. intros [= <- <-] Hst.
      f_equal. by apply Herr.
    + destruct (LPM.delete_entry u handle) as [[st u']|] eqn:Hdel; [|done].
      intros [= <- <-] Hst. f_equal. by eapply lpm_delete_entry_error.
    + pose proof (ternary_delete_entry_error u handle) as Herr.
      destruct (Ternary.delete_entry u handle) as [st u']. intros [= <- <-] Hst.
      f_equal. by apply Herr.
  - destruct m as [u|u|u]; cbn [modify_entry].
    + pose proof (exact_modify_entry_error u handle v) as Herr.
      destruct (Exact.modify_entry u handle v) as [st u']. intros [= <- <-] Hst.
      f_equal. by apply Herr.
    + pose proof (lpm_modify_entry_error u handle v) as Herr.
      destruct (LPM.modify_entry u handle v) as [st u']. intros [= <- <-] Hst.
      f_equal. by apply Herr.
    + pose proof (ternary_modify_entry_error u handle v) as Herr.
      destruct (Ternary.modify_entry u handle v) as [st u']. intros [= <- <-] Hst.
      f_equal. by apply Herr.
  - pose proof (get_value_state m handle) as Hst.
    destruct (get_value m handle) as [[st m1] v]. simpl in Hst. by intros [= <- <-] _.
Qed.
End handle_check.

Section handle_check_examples.
Import MatchKeyParam MatchUnit Scenario.

Lemma handle_error_leaves_state_unchanged_witness :
  ∃ m m', exact_reused = Returned m ∧
          step m (ModifyEntry 0 99) = Returned (EXPIRED_HANDLE, m') ∧
          handle_error EXPIRED_HANDLE ∧ m' = m.
Proof.
  eexists _, _. split; [by vm_compute|]. split; [by vm_compute|].
  split; [by right|].
  eapply (handle_error_leaves_state_unchanged _ (ModifyEntry 0 99) EXPIRED_HANDLE);
    [by vm_compute | by right].
Defined.
End handle_check_examples.

(** ** [valid_handle] *)

(** C6 (amended). [valid_handle(h)] tests the liveness of the slot only;
    the version stored in the slot is not compared with the version in
    [h]. For the handles on which the decoding macro yields the low 32
    bits (the handle 0 and the handles of slot 1), [valid_handle(h)] is
    true iff the slot in the low 32 bits of [h] is live. *)
Theorem valid_handle_is_liveness (u : Abstract.t) (h : N) :
  h = 0 ∨ HANDLE_SLOT h = 1 →
  Abstract.valid_handle u h = true
  ↔ HandleMgr.valid_handle (Abstract.handles u) (HANDLE_SLOT h) = true.
Proof.
  intros Hh. apply HANDLE_INTERNAL_is_slot in Hh.
  unfold Abstract.valid_handle, Abstract.valid_handle_. by rewrite Hh.
Qed.

Section valid_handle_examples.
Import MatchKeyParam MatchUnit Scenario.

(** C6, counterexample: slot 0 is live again with version 1; the handle
    0 carries version 0 and [valid_handle] accepts it. *)
Lemma valid_handle_ignores_version :
  ∃ m, exact_reused = Returned m ∧
       valid_handle m 0 = true ∧
       Abstract.valid_handle_ (base m) (HANDLE_SLOT 0) = true ∧
       version_at m (HANDLE_SLOT 0) = 1 ∧ HANDLE_VERSION 0 = 0.
Proof. eexists. split; [by vm_compute|]. by vm_compute. Qed.

Lemma valid_handle_is_liveness_witness :
  ∃ m, exact3 = Returned m ∧
       HANDLE_SLOT 1 = 1 ∧
       (Abstract.valid_handle (base m) 1 = true
        ↔ HandleMgr.valid_handle (Abstract.handles (base m)) (HANDLE_SLOT 1) = true) ∧
       Abstract.valid_handle (base m) 1 = true.
Proof.
  eexists. split; [by vm_compute|]. split; [by vm_compute|]. split.
  - apply valid_handle_is_liveness. right. by vm_compute.
  - by vm_compute.
Defined.
End valid_handle_examples.

(** ** The key built by [add_entry] *)

Section canonical_key_claims.
Context {V : Type} `{!Inhabited V}.
Import MatchUnit.

(** C7 (amended). When [add_entry] builds its key without a failed
    assertion, the exact and the ternary unit build the key bytes of the
    VALID parameters in input order followed by the key bytes of the other
    parameters in input order; the LPM unit builds the VALID bytes, then
    the EXACT bytes in input order, then the bytes of its LPM parameter,
    wherever that parameter stands in the input. *)
Theorem build_new_key_canonical (m : MatchUnit.t V) (match_key : list MatchKeyParam.t)
    (k : ByteContainer) :
  build_new_key m match_key = Returned k →
  k = match m with
      | OfExact _ | OfTernary _ => canonical_key match_key
      | OfLPM _ => lpm_canonical_key match_key
      end.
Proof.
  destruct m as [u|u|u]; cbn [build_new_key].
  - intros Hk. by apply exact_build_new_key_spec in Hk as [-> _].
  - destruct (LPM.build_new_key u match_key) as [[k' p]|] eqn:Hk; [|done].
    intros [= <-]. by eapply lpm_build_new_key_spec.
  - destruct (Ternary.build_new_key u match_key) as [[k' msk]|] eqn:Hk; [|done].
    intros [= <-]. by eapply ternary_build_new_key_spec.
Qed.
End canonical_key_claims.

Section canonical_key_examples.
Import MatchKeyParam MatchUnit Scenario.

(** C7, counterexample: in the LPM unit the bytes of the LPM parameter
    come last although the parameter is first in the input. *)
Lemma lpm_key_not_in_input_order :
  LPM.build_new_key (LPM.new (V:=N) 4 2) lpm_first_params = Returned ([0xAA; 0xC0], 9%Z) ∧
  canonical_key lpm_first_params = [0xC0; 0xAA].
Proof. by vm_compute. Qed.

(** The parameter list [EXACT=0xAA, VALID=0x01, EXACT=0xBB] gives the
    bytes [01 AA BB] in the exact and in the ternary unit. *)
Lemma build_new_key_canonical_witness :
  build_new_key (OfExact (Exact.new (V:=N) 4 3)) valid_params = Returned [0x01; 0xAA; 0xBB] ∧
  build_new_key (OfTernary (Ternary.new (V:=N) 4 3)) valid_params = Returned [0x01; 0xAA; 0xBB] ∧
  [0x01; 0xAA; 0xBB] = canonical_key valid_params.
Proof.
  split; [by vm_compute|]. split; [by vm_compute|].
  apply (build_new_key_canonical (OfExact (Exact.new (V:=N) 4 3)) valid_params).
  by vm_compute.
Defined.
End canonical_key_examples.

(** ** The decoding macro on explicit inputs *)

Section decoding_examples.
Import MatchKeyParam MatchUnit Scenario.

(** C1, failing input. With the slots 0, 1 and 2 live at version 0, the
    handle 2 names slot 2 ([2 & 0xffffffff = 2]), which is live with the
    version of the handle; yet [get_value(2)] reads the value 8 of slot 1
    instead of the value 9 of slot 2, and once the entry of slot 1 is
    deleted the three operations reject the handle 2 as [INVALID_HANDLE]. *)
Theorem handle_check_decodes_wrong_slot :
  ∃ m m1,
    exact3 = Returned m ∧
    HANDLE_SLOT 2 = 2 ∧ HANDLE_INTERNAL 2 = 1 ∧
    Abstract.valid_handle_ (base m) 2 = true ∧ version_at m 2 = HANDLE_VERSION 2 ∧
    lookup_key m [0xAB; 0xCF] = Some (2, 9) ∧
    get_value m 2 = (SUCCESS, m, Some 8) ∧
    delete_entry m 1 = Returned (SUCCESS, m1) ∧
    Abstract.valid_handle_ (base m1) 2 = true ∧ version_at m1 2 = HANDLE_VERSION 2 ∧
    get_value m1 2 = (INVALID_HANDLE, m1, None) ∧
    modify_entry m1 2 5 = (INVALID_HANDLE, m1) ∧
    delete_entry m1 2 = Returned (INVALID_HANDLE, m1).
Proof. eexists _, _. split; [by vm_compute|]. by vm_compute. Qed.

(** C5, failing input. The third insertion returns the handle 2. The
    deletion through the handle 1 succeeds, and from then on
    [valid_handle(2)] is false although [delete_entry(2)] was never
    called. Called on the full table instead, [delete_entry(2)] succeeds
    by deleting the entry of slot 1: the handle 1 is rejected from then on
    without having been deleted, and the entry of the handle 2 stays. *)
Theorem valid_handle_lost_without_delete :
  ∃ m2 m3 m4 m5,
    exact2 = Returned m2 ∧
    add_entry m2 key_c 9 0 = Returned (SUCCESS, m3, Some 2) ∧
    valid_handle m3 2 = true ∧
    delete_entry m3 1 = Returned (SUCCESS, m4) ∧
    valid_handle m4 2 = false ∧
    delete_entry m3 2 = Returned (SUCCESS, m5) ∧
    valid_handle m5 1 = false ∧
    lookup_key m5 [0xAB; 0xCE] = None ∧
    lookup_key m5 [0xAB; 0xCF] = Some (2, 9).
Proof. eexists _, _, _, _. split; [by vm_compute|]. split; [by vm_compute|]. by vm_compute. Qed.

(** C4, failing input. For one EXACT byte and an LPM parameter of prefix
    length 12 the entry is stored with the prefix length 13: the EXACT
    byte counts for 1, not for 8. The bytes of the LPM parameter are the
    last ones of the key. *)
Theorem lpm_prefix_length_counts_bytes :
  ∃ u',
    LPM.add_entry (LPM.new (V:=N) 4 3) lpm_params 7 0 = Returned (SUCCESS, u', Some 0) ∧
    LPM.prefix_length (LPM.entries u' !!! 0%nat) = 13%Z ∧
    LPM.key (LPM.entries u' !!! 0%nat) = [0x0A; 0xC0; 0xA8].
Proof. eexists. split; [by vm_compute|]. by vm_compute. Qed.
End decoding_examples.

(** ** Versions and liveness along a run, for the three variants *)

Lemma lookup_total_insert_cases {A : Type} `{!Inhabited A} (l : list A) (i j : nat) (x : A) :
  <[i:=x]> l !!! j = l !!! j ∨ (i = j ∧ (i < length l)%nat ∧ <[i:=x]> l !!! j = x).
Proof.
  destruct (decide (i = j)) as [->|Hne].
  - destruct (decide (j < length l)%nat) as [Hlt|Hge].
    + right. by rewrite list_lookup_total_insert_eq.
    + left. rewrite list_insert_ge; [done|lia].
  - left. by rewrite list_lookup_total_insert_ne.
Qed.

Lemma wrap32_succ (x : N) : wrap32 (wrap32 x + 1) = wrap32 (x + 1).
Proof. unfold wrap32. by rewrite N.Div0.add_mod_idemp_l. Qed.

(** A 32-bit counter that was bumped at least once and fewer than [2^32]
    times differs from its old value. *)
Lemma wrap32_bumped_ne (x j : N) : 0 < j → j < 2 ^ 32 → wrap32 (x + j) ≠ x.
Proof.
  unfold wrap32. intros Hj Hlt Heq.
  pose proof (N.Div0.div_mod (x + j) (2 ^ 32)) as Hdm. rewrite Heq in Hdm.
  change (2 ^ 32) with 4294967296 in *. lia.
Qed.

Section versions.
Context {V : Type} `{!Inhabited V}.
Import MatchUnit.

Implicit Types (m : MatchUnit.t V) (c : call V) (s : N).

Lemma step_base m c status m' :
  step m c = Returned (status, m') →
  n_entries m' = n_entries m ∧ base_step (base m) (base m').
Proof.
  unfold base_step.
  destruct c as [match_key v priority|handle|handle v|handle]; cbn [step].
  - destruct m as [u|u|u]; cbn [add_entry].
    + unfold Exact.add_entry. destruct (Exact.build_new_key u match_key); [|done].
      destruct (Abstract.get_and_set_handle _) as [st|[b s]] eqn:Hget; intros [= <- <-];
        cbn [n_entries base Exact.entries Exact.base]; [eauto|].
      rewrite length_insert. eauto.
    + unfold LPM.add_entry. destruct (LPM.build_new_key u match_key) as [[k p]|]; [|done].
      destruct (Abstract.get_and_set_handle _) as [st|[b s]] eqn:Hget; intros [= <- <-];
        cbn [n_entries base LPM.entries LPM.base]; [eauto|].
      rewrite length_insert. eauto.
    + unfold Ternary.add_entry.
      destruct (Ternary.build_new_key u match_key) as [[k p]|]; [|done].
      destruct (Abstract.get_and_set_handle _) as [st|[b s]] eqn:Hget; intros [= <- <-];
        cbn [n_entries base Ternary.entries Ternary.base]; [eauto|].
      rewrite length_insert. eauto.
  - destruct m as [u|u|u]; cbn [delete_entry].
    + unfold Exact.delete_entry. handle_check Hlive Hver; try (intros [= <- <-]; eauto).
      rewrite (unset_handle_live _ _ Hlive).
      intros [= <- <-]. cbn [n_entries base Exact.entries Exact.base].
      rewrite length_insert. split; [done|]. right; right. eexists. split; [done|].
      by apply unset_handle_live.
    + unfold LPM.delete_entry. handle_check Hlive Hver; try (intros [= <- <-]; eauto).
      destruct (LPMTrie.delete_prefix _ _ _) as [trie'|]; [|done].
      rewrite (unset_handle_live _ _ Hlive).
      intros [= <- <-]. cbn [n_entries base LPM.entries LPM.base].
      rewrite length_insert. split; [done|]. right; right. eexists. split; [done|].
      by apply unset_handle_live.
    + unfold Ternary.delete_entry. handle_check Hlive Hver; try (intros [= <- <-]; eauto).
      rewrite (unset_handle_live _ _ Hlive).
      intros [= <- <-]. cbn [n_entries base Ternary.entries Ternary.base].
      rewrite length_insert. split; [done|]. right; right. eexists. split; [done|].
      by apply unset_handle_live.
  - destruct m as [u|u|u]; cbn [modify_entry].
    + unfold Exact.modify_entry. handle_check Hlive Hver; intros [= <- <-]; eauto.
      cbn [n_entries base Exact.entries Exact.base]. rewrite length_insert. eauto.
    + unfold LPM.modify_entry. handle_check Hlive Hver; intros [= <- <-]; eauto.
      cbn [n_entries base LPM.entries LPM.base]. rewrite length_insert. eauto.
    + unfold Ternary.modify_entry. rewrite valid_handle_decoded.
      handle_check Hlive Hver; intros [= <- <-]; eauto.
      cbn [n_entries base Ternary.entries Ternary.base]. rewrite length_insert. eauto.
  - pose proof (get_value_state m handle) as Hst.
    destruct (get_value m handle) as [[st m1] v]. simpl in Hst. intros [= <- <-]. subst. eauto.
Qed.

Lemma base_step_wf (b b' : Abstract.t) :
  base_step b b' → HandleMgr.wf (Abstract.handles b) →
  HandleMgr.wf (Abstract.handles b') ∧
  HandleMgr.capacity (Abstract.handles b') = HandleMgr.capacity (Abstract.handles b) ∧
  Abstract.size b' = Abstract.size b.
Proof.
  intros [->|[(s & Hget)|(s & Hlive & Hun)]] Hwf; [done|..].
  - apply get_and_set_handle_success in Hget as (_ & Hget & Hsz & _).
    apply get_handle_spec in Hget as (Hwf' & Hcap & _); done.
  - rewrite (unset_handle_live _ _ Hlive) in Hun. injection Hun as <-.
    pose proof (release_handle_live _ _ Hlive) as Hrel.
    apply release_handle_spec in Hrel as (Hwf' & Hcap & _); done.
Qed.

(** The shared invariant holds initially and is kept by every call. *)
Lemma wf_new_exact (size nbytes_key : N) : wf (new_exact (V:=V) size nbytes_key).
Proof.
  unfold wf, new_exact. cbn. split_and!; [apply wf_new|done|by rewrite length_replicate].
Qed.

Lemma wf_new_lpm (size nbytes_key : N) : wf (new_lpm (V:=V) size nbytes_key).
Proof.
  unfold wf, new_lpm. cbn. split_and!; [apply wf_new|done|by rewrite length_replicate].
Qed.

Lemma wf_new_ternary (size nbytes_key : N) : wf (new_ternary (V:=V) size nbytes_key).
Proof.
  unfold wf, new_ternary. cbn. split_and!; [apply wf_new|done|by rewrite length_replicate].
Qed.

Lemma wf_step m c status m' : wf m → step m c = Returned (status, m') → wf m'.
Proof.
  intros (Hhm & Hcap & Hlen) Hstep. apply step_base in Hstep as [Hn Hb].
  apply base_step_wf in Hb as (Hhm' & Hcap' & Hsz); [|done].
  unfold wf. split_and!; [done|congruence|congruence].
Qed.

Lemma wf_run m calls m' : wf m → run m calls = Returned m' → wf m'.
Proof.
  revert m. induction calls as [|c rest IH]; intros m Hwf; cbn [run].
  - by intros [= <-].
  - destruct (step m c) as [[st m1]|] eqn:Hstep; [|done].
    apply IH. by eapply wf_step.
Qed.

(** In a consistent state a live slot indexes [entries] in range. *)
Lemma wf_in_range m s :
  wf m → Abstract.valid_handle_ (base m) s = true → (N.to_nat s < n_entries m)%nat.
Proof.
  intros ((_ & _ & Hrange) & Hcap & Hlen) Hs. apply Hrange in Hs. lia.
Qed.

(** One call leaves the version of a slot as it is, or it is a
    [delete_entry] and bumps it. *)
Lemma step_version m c status m' s :
  step m c = Returned (status, m') →
  version_at m' s = version_at m s ∨
  ((∃ h, c = DeleteEntry h) ∧ version_at m' s = wrap32 (version_at m s + 1)).
Proof.
  destruct c as [match_key v priority|handle|handle v|handle]; cbn [step].
  - destruct m as [u|u|u]; cbn [add_entry].
    + unfold Exact.add_entry. destruct (Exact.build_new_key u match_key); [|done].
      destruct (Abstract.get_and_set_handle _) as [st|[b s0]]; intros [= <- <-]; [by left|].
      left. cbn [version_at Exact.entries]. set (e := Exact.mkEntry _ _ _).
      by destruct (lookup_total_insert_cases (Exact.entries u) (N.to_nat s0) (N.to_nat s) e)
        as [->|(<- & _ & ->)].
    + unfold LPM.add_entry. destruct (LPM.build_new_key u match_key) as [[k p]|]; [|done].
      destruct (Abstract.get_and_set_handle _) as [st|[b s0]]; intros [= <- <-]; [by left|].
      left. cbn [version_at LPM.entries]. set (e := LPM.mkEntry _ _ _ _).
      by destruct (lookup_total_insert_cases (LPM.entries u) (N.to_nat s0) (N.to_nat s) e)
        as [->|(<- & _ & ->)].
    + unfold Ternary.add_entry.
      destruct (Ternary.build_new_key u match_key) as [[k msk]|]; [|done].
      destruct (Abstract.get_and_set_handle _) as [st|[b s0]]; intros [= <- <-]; [by left|].
      left. cbn [version_at Ternary.entries]. set (e := Ternary.mkEntry _ _ _ _ _).
      by destruct (lookup_total_insert_cases (Ternary.entries u) (N.to_nat s0) (N.to_nat s) e)
        as [->|(<- & _ & ->)].
  - destruct m as [u|u|u]; cbn [delete_entry].
    + unfold Exact.delete_entry. handle_check Hlive Hver; try (intros [= <- <-]; by left).
      rewrite (unset_handle_live _ _ Hlive). intros [= <- <-].
      cbn [version_at Exact.entries].
      set (e := Exact.mkEntry _ _ _).
      destruct (lookup_total_insert_cases (Exact.entries u)
                  (N.to_nat (HANDLE_INTERNAL handle)) (N.to_nat s) e) as [->|(Heq & _ & ->)];
        [by left|right]. split; [eauto|]. by rewrite <- Heq.
    + unfold LPM.delete_entry. handle_check Hlive Hver; try (intros [= <- <-]; by left).
      destruct (LPMTrie.delete_prefix _ _ _) as [trie'|]; [|done].
      rewrite (unset_handle_live _ _ Hlive). intros [= <- <-].
      cbn [version_at LPM.entries].
      set (e := LPM.mkEntry _ _ _ _).
      destruct (lookup_total_insert_cases (LPM.entries u)
                  (N.to_nat (HANDLE_INTERNAL handle)) (N.to_nat s) e) as [->|(Heq & _ & ->)];
        [by left|right]. split; [eauto|]. by rewrite <- Heq.
    + unfold Ternary.delete_entry. handle_check Hlive Hver; try (intros [= <- <-]; by left).
      rewrite (unset_handle_live _ _ Hlive). intros [= <- <-].
      cbn [version_at Ternary.entries].
      set (e := Ternary.mkEntry _ _ _ _ _).
      destruct (lookup_total_insert_cases (Ternary.entries u)
                  (N.to_nat (HANDLE_INTERNAL handle)) (N.to_nat s) e) as [->|(Heq & _ & ->)];
        [by left|right]. split; [eauto|]. by rewrite <- Heq.
  - destruct m as [u|u|u]; cbn [modify_entry].
    + unfold Exact.modify_entry.
      handle_check Hlive Hver; intros [= <- <-]; left; try done.
      cbn [version_at Exact.entries]. set (e := Exact.mkEntry _ _ _).
      by destruct (lookup_total_insert_cases (Exact.entries u)
                     (N.to_nat (HANDLE_INTERNAL handle)) (N.to_nat s) e)
        as [->|(<- & _ & ->)].
    + unfold LPM.modify_entry.
      handle_check Hlive Hver; intros [= <- <-]; left; try done.
      cbn [version_at LPM.entries]. set (e := LPM.mkEntry _ _ _ _).
      by destruct (lookup_total_insert_cases (LPM.entries u)
                     (N.to_nat (HANDLE_INTERNAL handle)) (N.to_nat s) e)
        as [->|(<- & _ & ->)].
    + unfold Ternary.modify_entry. rewrite valid_handle_decoded.
      handle_check Hlive Hver; intros [= <- <-]; left; try done.
      cbn [version_at Ternary.entries]. set (e := Ternary.mkEntry _ _ _ _ _).
      by destruct (lookup_total_insert_cases (Ternary.entries u)
                     (N.to_nat (HANDLE_INTERNAL handle)) (N.to_nat s) e)
        as [->|(<- & _ & ->)].
  - pose proof (get_value_state m handle) as Hst.
    destruct (get_value m handle) as [[st m1] v]. simpl in Hst. intros [= <- <-]. subst.
    by left.
Qed.
End versions.

(** ** Stale handles *)

Section stale_handles.
Context {V : Type} `{!Inhabited V}.
Import MatchUnit.

Implicit Types (m : MatchUnit.t V) (c : call V) (s : N).

(** Along a run the version of a slot is bumped at most once per
    [delete_entry] call. *)
Lemma run_version m calls m' s (x : N) :
  run m calls = Returned m' → version_at m s = wrap32 x →
  ∃ k, k ≤ deletions calls ∧ version_at m' s = wrap32 (x + k).
Proof.
  revert m x. induction calls as [|c rest IH]; intros m x; cbn [run].
  - intros [= <-] Hx. exists 0. split; [done|]. by rewrite N.add_0_r.
  - destruct (step m c) as [[st m1]|] eqn:Hstep; [|done]. intros Hrun Hx.
    destruct (step_version _ _ _ _ s Hstep) as [Hsame|[[h ->] Hbump]].
    + destruct (IH m1 x Hrun) as (k & Hk & Hv); [congruence|].
      exists k. split; [|done]. destruct c; cbn [deletions]; lia.
    + destruct (IH m1 (x + 1) Hrun) as (k & Hk & Hv).
      { by rewrite Hbump, Hx, wrap32_succ. }
      exists (1 + k). split; [cbn [deletions]; lia|].
      rewrite Hv. f_equal. lia.
Qed.

(** The three operations on a handle succeed only when the handle passes
    the check; otherwise they return one of the two handle errors. *)
Lemma delete_entry_status m handle status m' :
  delete_entry m handle = Returned (status, m') →
  handle_error status ∨ (status = SUCCESS ∧ accepted m handle).
Proof.
  unfold handle_error, accepted. destruct m as [u|u|u]; cbn [delete_entry version_at base].
  - unfold Exact.delete_entry. handle_check Hlive Hver; try (intros [= <- <-]; naive_solver).
    rewrite (unset_handle_live _ _ Hlive). intros [= <- <-]. by right.
  - unfold LPM.delete_entry. handle_check Hlive Hver; try (intros [= <- <-]; naive_solver).
    destruct (LPMTrie.delete_prefix _ _ _) as [trie'|]; [|done].
    rewrite (unset_handle_live _ _ Hlive). intros [= <- <-]. by right.
  - unfold Ternary.delete_entry. handle_check Hlive Hver; try (intros [= <- <-]; naive_solver).
    rewrite (unset_handle_live _ _ Hlive). intros [= <- <-]. by right.
Qed.

Lemma modify_entry_status m handle (v : V) :
  handle_error (modify_entry m handle v).1 ∨
  ((modify_entry m handle v).1 = SUCCESS ∧ accepted m handle).
Proof.
  unfold handle_error, accepted. destruct m as [u|u|u]; cbn [modify_entry version_at base].
  - unfold Exact.modify_entry. handle_check Hlive Hver; cbn [fst]; naive_solver.
  - unfold LPM.modify_entry. handle_check Hlive Hver; cbn [fst]; naive_solver.
  - unfold Ternary.modify_entry. rewrite valid_handle_decoded.
    handle_check Hlive Hver; cbn [fst]; naive_solver.
Qed.

Lemma get_value_status m handle :
  handle_error (get_value m handle).1.1 ∨
  ((get_value m handle).1.1 = SUCCESS ∧ accepted m handle).
Proof.
  unfold handle_error, accepted. destruct m as [u|u|u]; cbn [get_value version_at base].
  - unfold Exact.get_value. rewrite valid_handle_decoded.
    handle_check Hlive Hver; cbn [fst]; naive_solver.
  - unfold LPM.get_value. handle_check Hlive Hver; cbn [fst]; naive_solver.
  - unfold Ternary.get_value. handle_check Hlive Hver; cbn [fst]; naive_solver.
Qed.

(** In a consistent state a successful [delete_entry] bumps the version
    of the slot it decodes. *)
Lemma delete_entry_bumps m handle m' :
  wf m → delete_entry m handle = Returned (SUCCESS, m') →
  version_at m' (HANDLE_INTERNAL handle) = wrap32 (HANDLE_VERSION handle + 1).
Proof.
  intros Hwf Hdel.
  destruct (delete_entry_status _ _ _ _ Hdel) as [[?|?]|(_ & Hlive & Hver)]; try done.
  pose proof (wf_in_range _ _ Hwf Hlive) as Hlt. revert Hdel Hlt Hver.
  destruct m as [u|u|u]; cbn [delete_entry version_at n_entries];
    unfold Abstract.valid_handle_ in Hlive; cbn [base] in Hlive.
  - unfold Exact.delete_entry. unfold Abstract.valid_handle_. rewrite Hlive. cbn [negb].
    intros Hdel Hlt Hver. rewrite Hver, N.eqb_refl in Hdel. cbn [negb] in Hdel.
    rewrite (unset_handle_live _ _ Hlive) in Hdel. injection Hdel as <-.
    cbn [version_at Exact.entries]. rewrite list_lookup_total_insert_eq by done.
    by cbn [Exact.version].
  - unfold LPM.delete_entry. unfold Abstract.valid_handle_. rewrite Hlive. cbn [negb].
    intros Hdel Hlt Hver. rewrite Hver, N.eqb_refl in Hdel. cbn [negb] in Hdel.
    destruct (LPMTrie.delete_prefix _ _ _) as [trie'|]; [|done].
    rewrite (unset_handle_live _ _ Hlive) in Hdel. injection Hdel as <-.
    cbn [version_at LPM.entries]. rewrite list_lookup_total_insert_eq by done.
    by cbn [LPM.version].
  - unfold Ternary.delete_entry. unfold Abstract.valid_handle_. rewrite Hlive. cbn [negb].
    intros Hdel Hlt Hver. rewrite Hver, N.eqb_refl in Hdel. cbn [negb] in Hdel.
    rewrite (unset_handle_live _ _ Hlive) in Hdel. injection Hdel as <-.
    cbn [version_at Ternary.entries]. rewrite list_lookup_total_insert_eq by done.
    by cbn [Ternary.version].
Qed.

(** After [delete_entry(h)] has succeeded in a consistent state, and
    whatever calls follow (insertions that reuse the slot included), as
    long as fewer than [2^32 - 1] of them are [delete_entry] calls, the
    handle [h] is not accepted any more: [get_value(h)], [modify_entry(h, v)]
    and [delete_entry(h)] return [INVALID_HANDLE] or [EXPIRED_HANDLE]. *)
Theorem stale_handle_rejected m (h : N) m1 (calls : list (call V)) m2 :
  wf m →
  delete_entry m h = Returned (SUCCESS, m1) →
  run m1 calls = Returned m2 →
  deletions calls < 2 ^ 32 - 1 →
  handle_error (get_value m2 h).1.1 ∧
  (∀ v, handle_error (modify_entry m2 h v).1) ∧
  (∀ status m3, delete_entry m2 h = Returned (status, m3) → handle_error status).
Proof.
  intros Hwf Hdel Hrun Hfew.
  pose proof (delete_entry_bumps _ _ _ Hwf Hdel) as Hbump.
  destruct (run_version _ _ _ (HANDLE_INTERNAL h) (HANDLE_VERSION h + 1) Hrun Hbump)
    as (k & Hk & Hv).
  assert (Hstale : ¬ accepted m2 h).
  { intros [_ Hacc]. rewrite Hv in Hacc. rewrite <- N.add_assoc in Hacc.
    change (2 ^ 32) with 4294967296 in *.
    eapply (wrap32_bumped_ne _ (1 + k)); [| |exact Hacc];
      change (2 ^ 32) with 4294967296; lia. }
  split_and!.
  - by destruct (get_value_status m2 h) as [?|[_ ?]].
  - intros v. by destruct (modify_entry_status m2 h v) as [?|[_ ?]].
  - intros status m3 Hdel'. by destruct (delete_entry_status _ _ _ _ Hdel') as [?|[_ ?]].
Qed.
End stale_handles.

Section stale_handle_examples.
Import MatchKeyParam MatchUnit Scenario.

Lemma stale_handle_rejected_witness :
  ∃ m m1 m2,
    exact3 = Returned m ∧ wf m ∧
    delete_entry m 1 = Returned (SUCCESS, m1) ∧
    run m1 [AddEntry key_b 10 0] = Returned m2 ∧
    (get_value m2 1).1.1 = EXPIRED_HANDLE ∧
    handle_error (get_value m2 1).1.1.
Proof.
  eexists _, _, _. split; [by vm_compute|].
  match goal with |- wf ?m ∧ _ => assert (Hwf : wf m) end.
  { apply (wf_run (new_exact 3 2)
                  [AddEntry key_a 7 0%Z; AddEntry key_b 8 0%Z; AddEntry key_c 9 0%Z]);
      [apply wf_new_exact|by vm_compute]. }
  split; [done|]. split; [by vm_compute|]. split; [by vm_compute|].
  split; [by vm_compute|].
  refine (proj1 (stale_handle_rejected _ 1 _ [AddEntry key_b 10 0%Z] _ Hwf _ _ _));
    by vm_compute.
Defined.

Lemma HANDLE_INTERNAL_SET (v s : N) : s ≠ 0 → HANDLE_INTERNAL (HANDLE_SET v s) = 1.
Proof.
  intros Hs. rewrite HANDLE_INTERNAL_cases.
  destruct (N.eqb_spec (HANDLE_SET v s) 0) as [H0|]; [|done].
  unfold HANDLE_SET in H0. apply N.lor_eq_0_iff in H0 as [_ ?]. done.
Qed.

(** One cycle of insertion and deletion on slot 1 bumps its version and
    changes nothing else. *)
Lemma reinsert_and_delete_bumps (ver : N) :
  ver < 2 ^ 32 →
  reinsert_and_delete (exact_slot1_free ver) = exact_slot1_free (wrap32 (ver + 1)).
Proof.
  intros Hver. unfold reinsert_and_delete.
  assert (Hadd : Exact.add_entry (exact_slot1_free ver) key_b 8 0 =
                 Returned (SUCCESS,
                           Exact.mk (Abstract.mk 2 2 2 (HandleMgr.mk 2 [] 3))
                             [Exact.mkEntry [0xAB; 0xCD] 7 0; Exact.mkEntry [0xAB; 0xCE] 8 ver]
                             (<[ [0xAB; 0xCE] := 1 ]> {[ [0xAB; 0xCD] := 0 ]}),
                           Some (HANDLE_SET ver 1))) by by vm_compute.
  rewrite Hadd. clear Hadd.
  unfold Exact.delete_entry. rewrite HANDLE_INTERNAL_SET by done.
  rewrite HANDLE_VERSION_SET by (done || by vm_compute).
  cbn [Exact.base Exact.entries Exact.entries_map]. 
  change (Abstract.valid_handle_ _ 1) with true. cbn [negb].
  change (N.to_nat 1) with 1%nat.
  change ([_; _] !!! 1%nat) with (Exact.mkEntry [0xAB; 0xCE] 8 ver).
  cbn [Exact.version Exact.key Exact.value]. rewrite N.eqb_refl. cbn [negb].
  by vm_compute.
Qed.

Lemma reinsert_and_delete_iter (n ver : N) :
  N.iter n reinsert_and_delete (exact_slot1_free (wrap32 ver))
  = exact_slot1_free (wrap32 (ver + n)).
Proof.
  induction n as [|n IH] using N.peano_ind.
  - by rewrite N.add_0_r.
  - rewrite N.iter_succ, IH, reinsert_and_delete_bumps.
    + rewrite wrap32_succ. f_equal. f_equal. lia.
    + unfold wrap32. by apply N.mod_lt.
Qed.

Lemma reinsert_and_delete_wraps :
  N.iter (2 ^ 32 - 1) reinsert_and_delete (exact_slot1_free 1) = exact_slot1_free 0.
Proof.
  pose proof (reinsert_and_delete_iter (2 ^ 32 - 1) 1) as Hiter.
  replace (wrap32 1) with 1 in Hiter by by vm_compute.
  replace (wrap32 (1 + (2 ^ 32 - 1))) with 0 in Hiter by by vm_compute.
  exact Hiter.
Qed.

(** The version is a 32-bit counter, so the bound on the number of
    deletions above is tight. The handle 1 is deleted; after [2^32 - 1] further
    cycles of insertion and deletion on its slot the version of the slot is
    0 again, the next insertion writes out the handle 1 once more, and the
    handle deleted at the start is accepted. *)
Theorem stale_handle_accepted_after_wrap :
  ∃ u u2,
    exact_pair = Returned (OfExact u) ∧
    Exact.delete_entry u 1 = (SUCCESS, exact_slot1_free 1) ∧
    Exact.add_entry (N.iter (2 ^ 32 - 1) reinsert_and_delete (exact_slot1_free 1)) key_b 8 0
      = Returned (SUCCESS, u2, Some 1) ∧
    Exact.get_value u2 1 = (SUCCESS, u2, Some 8).
Proof.
  rewrite reinsert_and_delete_wraps.
  eexists _, _. split; [by vm_compute|]. split; [by vm_compute|].
  split; by vm_compute.
Qed.
End stale_handle_examples.

(** ** The prefix length of an LPM entry *)

Section lpm_prefix_length.
Import MatchKeyParam.

Lemma to_int_small (z : Z) : (- 2 ^ 31 ≤ z < 2 ^ 31)%Z → to_int z = z.
Proof.
  unfold to_int. change (2 ^ 31)%Z with 2147483648%Z.
  change (2 ^ 32)%Z with 4294967296%Z. intros Hz. rewrite Z.mod_small; lia.
Qed.

Lemma lpm_append_params_prefix (match_key : list MatchKeyParam.t) (acc k : ByteContainer)
    (p0 p' : Z) (l0 l' : option MatchKeyParam.t) :
  LPM.append_params match_key acc p0 l0 = Returned (k, p', l') →
  (0 ≤ p0)%Z →
  (p0 + Z.of_nat (length (mjoin (key <$> filter (λ p, type p = EXACT) match_key))) < 2 ^ 31)%Z →
  p' = (p0 + Z.of_nat (length (mjoin (key <$> filter (λ p, type p = EXACT) match_key))))%Z.
Proof.
  change (2 ^ 31)%Z with 2147483648%Z.
  revert acc p0 l0. induction match_key as [|p rest IH]; intros acc p0 l0; simpl.
  - intros [= <- <- <-] _ _. lia.
  - destruct (type p) eqn:Hp; try done.
    + rewrite filter_cons_True by done.
      set (rest_bytes := mjoin (key <$> filter (λ p, type p = EXACT) rest)) in *.
      replace (length (mjoin (key <$> p :: filter (λ p, type p = EXACT) rest)))
        with (length (key p) + length rest_bytes)%nat
        by (simpl; by rewrite length_app).
      intros Hk H0 Hlt.
      rewrite to_int_small in Hk by (change (2 ^ 31)%Z with 2147483648%Z; lia).
      apply IH in Hk; lia.
    + rewrite filter_cons_False by congruence.
      destruct l0; [done|]. apply IH.
    + rewrite filter_cons_False by congruence. apply IH.
Qed.

(** For every parameter list that [add_entry] of the LPM unit accepts
    (with fewer than [2^31] EXACT bytes), the prefix length it computes is
    the number of EXACT bytes, counted once each, plus the prefix length
    of the LPM parameter. *)
Theorem lpm_prefix_length_spec {V : Type} (u : LPM.t V) (match_key : list MatchKeyParam.t)
    (k : ByteContainer) (p : Z) :
  LPM.build_new_key u match_key = Returned (k, p) →
  (Z.of_nat (length (mjoin (key <$> filter (λ p, type p = EXACT) match_key))) < 2 ^ 31)%Z →
  ∃ q, filter (λ p, type p = LPM) match_key = [q] ∧
       p = to_int (Z.of_nat (length (mjoin (key <$> filter (λ p, type p = EXACT) match_key)))
                   + prefix_length q).
Proof.
  unfold LPM.build_new_key.
  destruct (LPM.append_params _ _ _ _) as [[[k1 p1] [q|]]|] eqn:Hk; try done.
  intros Hret Hlt.
  pose proof (lpm_append_params_spec _ _ _ _ _ _ _ Hk) as [_ Hl].
  apply lpm_append_params_prefix in Hk; [|lia|by rewrite Z.add_0_l].
  exists q. split; [done|]. case_match; [|done]. injection Hret as _ <-.
  by rewrite Hk, Z.add_0_l.
Qed.
End lpm_prefix_length.

Section lpm_prefix_length_examples.
Import MatchKeyParam Scenario.

Lemma lpm_prefix_length_spec_witness :
  LPM.build_new_key (LPM.new (V:=N) 4 3) lpm_params = Returned ([0x0A; 0xC0; 0xA8], 13%Z) ∧
  ∃ q, filter (λ p, type p = LPM) lpm_params = [q] ∧
       13%Z = to_int (Z.of_nat (length (mjoin (key <$> filter (λ p, type p = EXACT) lpm_params)))
                      + prefix_length q).
Proof.
  split; [by vm_compute|].
  apply (lpm_prefix_length_spec (LPM.new (V:=N) 4 3) lpm_params [0x0A; 0xC0; 0xA8]);
    by vm_compute.
Defined.
End lpm_prefix_length_examples.

(** ** Further properties of the handle scheme *)

(** A 64-bit handle is rebuilt from its version and the low 32 bits. *)
Theorem handle_round_trip (h : N) :
  h < 2 ^ 64 → HANDLE_SET (HANDLE_VERSION h) (HANDLE_SLOT h) = h.
Proof.
  intros Hh. unfold HANDLE_SET, HANDLE_VERSION, HANDLE_SLOT, wrap64.
  change 0xffffffff with (N.ones 32). rewrite N.land_ones.
  apply N.bits_inj. intros n. rewrite N.lor_spec.
  destruct (N.lt_ge_cases n 32) as [Hn|Hn].
  - rewrite N.mod_pow2_bits_low by lia. rewrite N.shiftl_spec_low by done.
    by rewrite N.mod_pow2_bits_low.
  - rewrite (N.mod_pow2_bits_high h 32 n) by done. rewrite orb_false_r.
    destruct (N.lt_ge_cases n 64) as [Hn64|Hn64].
    + rewrite N.mod_pow2_bits_low by done. rewrite N.shiftl_spec_high' by done.
      rewrite N.shiftr_spec'. f_equal. lia.
    + rewrite N.mod_pow2_bits_high by done. symmetry. by eapply testbit_small.
Qed.

Lemma handle_round_trip_witness :
  2 ^ 32 + 1 < 2 ^ 64 ∧
  HANDLE_VERSION (2 ^ 32 + 1) = 1 ∧ HANDLE_SLOT (2 ^ 32 + 1) = 1 ∧
  HANDLE_SET (HANDLE_VERSION (2 ^ 32 + 1)) (HANDLE_SLOT (2 ^ 32 + 1)) = 2 ^ 32 + 1.
Proof.
  split; [by vm_compute|]. split; [by vm_compute|]. split; [by vm_compute|].
  apply handle_round_trip. by vm_compute.
Defined.

Section modify_then_get.
Context {V : Type} `{!Inhabited V}.
Import MatchUnit.

(** In a consistent state, after [modify_entry(h, v)] has succeeded,
    [get_value(h)] succeeds and reads [v]. *)
Theorem get_value_after_modify_entry (m : MatchUnit.t V) (h : N) (v : V) (m' : MatchUnit.t V) :
  wf m → modify_entry m h v = (SUCCESS, m') → get_value m' h = (SUCCESS, m', Some v).
Proof.
  intros Hwf Hmod.
  destruct (modify_entry_status m h v) as [[Herr|Herr]|[_ [Hlive Hver]]];
    try (rewrite Hmod in Herr; done).
  pose proof (wf_in_range _ _ Hwf Hlive) as Hlt. revert Hmod Hlt Hver Hlive.
  destruct m as [u|u|u]; cbn [modify_entry version_at n_entries base]; intros Hmod Hlt Hver Hlive.
  - unfold Exact.modify_entry in Hmod. rewrite Hlive, Hver, N.eqb_refl in Hmod.
    cbn [negb] in Hmod. injection Hmod as <-. cbn [get_value]. unfold Exact.get_value.
    rewrite valid_handle_decoded. cbn [Exact.base Exact.entries]. rewrite Hlive.
    rewrite list_lookup_total_insert_eq by done.
    cbn [negb Exact.version Exact.value]. by rewrite N.eqb_refl.
  - unfold LPM.modify_entry in Hmod. rewrite Hlive, Hver, N.eqb_refl in Hmod.
    cbn [negb] in Hmod. injection Hmod as <-. cbn [get_value]. unfold LPM.get_value.
    cbn [LPM.base LPM.entries]. rewrite Hlive.
    rewrite list_lookup_total_insert_eq by done.
    cbn [negb LPM.version LPM.value]. by rewrite N.eqb_refl.
  - unfold Ternary.modify_entry in Hmod. rewrite valid_handle_decoded in Hmod.
    rewrite Hlive, Hver, N.eqb_refl in Hmod.
    cbn [negb] in Hmod. injection Hmod as <-. cbn [get_value]. unfold Ternary.get_value.
    cbn [Ternary.base Ternary.entries]. rewrite Hlive.
    rewrite list_lookup_total_insert_eq by done.
    cbn [negb Ternary.version Ternary.value]. by rewrite N.eqb_refl.
Qed.
End modify_then_get.

Section modify_then_get_examples.
Import MatchKeyParam MatchUnit Scenario.

Lemma get_value_after_modify_entry_witness :
  ∃ m m',
    exact3 = Returned m ∧ wf m ∧
    modify_entry m 1 42 = (SUCCESS, m') ∧
    get_value m' 1 = (SUCCESS, m', Some 42).
Proof.
  eexists _, _. split; [by vm_compute|].
  match goal with |- wf ?m ∧ _ => assert (Hwf : wf m) end.
  { apply (wf_run (new_exact 3 2)
                  [AddEntry key_a 7 0%Z; AddEntry key_b 8 0%Z; AddEntry key_c 9 0%Z]);
      [apply wf_new_exact|by vm_compute]. }
  split; [done|]. split; [by vm_compute|].
  apply (get_value_after_modify_entry _ 1 42 _ Hwf). by vm_compute.
Defined.
End modify_then_get_examples.

(** ** What the decoding macro lets a call reach *)

(** Encoding then decoding: the version and the low 32 bits are read
    back, and the macro used by the operations yields the slot exactly
    for the handle 0 and for the handles of slot 1. *)
Theorem handle_set_decode (v s : N) :
  v < 2 ^ 32 → s < 2 ^ 32 →
  HANDLE_VERSION (HANDLE_SET v s) = v ∧
  HANDLE_SLOT (HANDLE_SET v s) = s ∧
  (HANDLE_INTERNAL (HANDLE_SET v s) = s ↔ (v = 0 ∧ s = 0) ∨ s = 1).
Proof.
  intros Hv Hs. split; [by apply HANDLE_VERSION_SET|]. split; [by apply HANDLE_SLOT_SET|].
  rewrite HANDLE_INTERNAL_cases.
  destruct (N.eqb_spec (HANDLE_SET v s) 0) as [H0|Hne].
  - unfold HANDLE_SET in H0. apply N.lor_eq_0_iff in H0 as [Hv0 ->].
    unfold wrap64 in Hv0. rewrite N.shiftl_mul_pow2 in Hv0.
    change (2 ^ 32) with 4294967296 in *. change (2 ^ 64) with 18446744073709551616 in *.
    rewrite N.mod_small in Hv0 by lia. split; [intros _; left; lia|done].
  - split; [intros <-; by right|].
    intros [[-> ->]| ->]; [|done]. by vm_compute in Hne.
Qed.

Lemma handle_set_decode_witness :
  3 < 2 ^ 32 ∧ 1 < 2 ^ 32 ∧
  HANDLE_VERSION (HANDLE_SET 3 1) = 3 ∧
  HANDLE_SLOT (HANDLE_SET 3 1) = 1 ∧
  (HANDLE_INTERNAL (HANDLE_SET 3 1) = 1 ↔ (3 = 0 ∧ 1 = 0) ∨ 1 = 1).
Proof.
  split; [by vm_compute|]. split; [by vm_compute|].
  apply handle_set_decode; by vm_compute.
Defined.

Lemma HANDLE_INTERNAL_le_1 (h : N) : HANDLE_INTERNAL h ≤ 1.
Proof. rewrite HANDLE_INTERNAL_cases. destruct (h =? 0); lia. Qed.

Section reach.
Context {V : Type} `{!Inhabited V}.
Import MatchUnit.

Implicit Types (m : MatchUnit.t V) (c : call V) (s : N).

Lemma insert_other_slot {A : Type} `{!Inhabited A} (l : list A) (i j : N) (x : A) :
  j ≠ i → <[N.to_nat i := x]> l !!! N.to_nat j = l !!! N.to_nat j.
Proof. intros Hne. apply list_lookup_total_insert_ne. lia. Qed.

Lemma unset_handle_other (b : Abstract.t) (s s' : N) :
  s' ≠ s →
  Abstract.valid_handle_ (Abstract.unset_handle b s).2 s' = Abstract.valid_handle_ b s'.
Proof.
  intros Hne. unfold Abstract.unset_handle, HandleMgr.release_handle.
  destruct (HandleMgr.valid_handle _ s); [|done].
  unfold Abstract.valid_handle_, HandleMgr.valid_handle. cbn. by apply N.clearbit_neq.
Qed.

(** A call on the handle [h] leaves every slot but [HANDLE_INTERNAL(h)]
    as it was. *)
Lemma step_other_slot m c (h : N) status m' s :
  handle_of c = Some h → step m c = Returned (status, m') → s ≠ HANDLE_INTERNAL h →
  Abstract.valid_handle_ (base m') s = Abstract.valid_handle_ (base m) s ∧
  version_at m' s = version_at m s ∧ value_at m' s = value_at m s ∧
  key_at m' s = key_at m s.
Proof.
  intros Hc Hstep Hne.
  destruct c as [match_key v priority|handle|handle v|handle]; simplify_eq/=.
  - destruct m as [u|u|u]; cbn [delete_entry] in Hstep.
    + revert Hstep. unfold Exact.delete_entry.
      handle_check Hlive Hver; try (by intros [= <- <-]).
      pose proof (unset_handle_other (Exact.base u) _ _ Hne) as Hb.
      destruct (Abstract.unset_handle _ _) as [st b]. intros [= <- <-].
      cbn [base version_at value_at key_at Exact.base Exact.entries].
      by rewrite insert_other_slot.
    + revert Hstep. unfold LPM.delete_entry.
      handle_check Hlive Hver; try (by intros [= <- <-]).
      destruct (LPMTrie.delete_prefix _ _ _) as [trie'|]; [|done].
      pose proof (unset_handle_other (LPM.base u) _ _ Hne) as Hb.
      destruct (Abstract.unset_handle _ _) as [st b]. intros [= <- <-].
      cbn [base version_at value_at key_at LPM.base LPM.entries].
      by rewrite insert_other_slot.
    + revert Hstep. unfold Ternary.delete_entry.
      handle_check Hlive Hver; try (by intros [= <- <-]).
      pose proof (unset_handle_other (Ternary.base u) _ _ Hne) as Hb.
      destruct (Abstract.unset_handle _ _) as [st b]. intros [= <- <-].
      cbn [base version_at value_at key_at Ternary.base Ternary.entries].
      by rewrite insert_other_slot.
  - destruct m as [u|u|u]; cbn [modify_entry] in Hstep.
    + revert Hstep. unfold Exact.modify_entry.
      handle_check Hlive Hver; intros [= <- <-]; try done.
      cbn [base version_at value_at key_at Exact.base Exact.entries].
      by rewrite insert_other_slot.
    + revert Hstep. unfold LPM.modify_entry.
      handle_check Hlive Hver; intros [= <- <-]; try done.
      cbn [base version_at value_at key_at LPM.base LPM.entries].
      by rewrite insert_other_slot.
    + revert Hstep. unfold Ternary.modify_entry. rewrite valid_handle_decoded.
      handle_check Hlive Hver; intros [= <- <-]; try done.
      cbn [base version_at value_at key_at Ternary.base Ternary.entries].
      by rewrite insert_other_slot.
  - pose proof (get_value_state m h) as Hst.
    destruct (get_value m h) as [[st m1] v]. simpl in Hst. by simplify_eq.
Qed.

(** Whatever handle [delete_entry], [modify_entry] or [get_value] is
    called on, the entries in the slots 2 and above are out of its reach:
    their liveness, version, value and key are as before the call. *)
Theorem slots_above_one_untouched m c (h : N) status m' s :
  handle_of c = Some h → step m c = Returned (status, m') → 2 ≤ s →
  Abstract.valid_handle_ (base m') s = Abstract.valid_handle_ (base m) s ∧
  version_at m' s = version_at m s ∧ value_at m' s = value_at m s ∧
  key_at m' s = key_at m s.
Proof.
  intros Hc Hstep Hs. eapply step_other_slot; [done..|].
  pose proof (HANDLE_INTERNAL_le_1 h). lia.
Qed.
End reach.

Section reach_examples.
Import MatchKeyParam MatchUnit Scenario.

Lemma slots_above_one_untouched_witness :
  ∃ m m',
    exact3 = Returned m ∧
    handle_of (V:=N) (DeleteEntry 2) = Some 2 ∧
    step m (DeleteEntry 2) = Returned (SUCCESS, m') ∧ 2 ≤ 2 ∧
    Abstract.valid_handle_ (base m') 2 = Abstract.valid_handle_ (base m) 2 ∧
    Abstract.valid_handle_ (base m') 2 = true.
Proof.
  eexists _, _. split; [by vm_compute|]. split; [done|]. split; [by vm_compute|].
  split; [done|]. split; [|by vm_compute].
  refine (proj1 (slots_above_one_untouched _ (DeleteEntry 2) 2 SUCCESS _ 2 _ _ _));
    by vm_compute.
Defined.
End reach_examples.

(** ** The handle right after its deletion *)

Section after_delete.
Context {V : Type} `{!Inhabited V}.
Import MatchUnit.

Implicit Types (m : MatchUnit.t V) (s : N).

Lemma unset_handle_dead (b : Abstract.t) (s : N) :
  Abstract.valid_handle_ b s = true →
  Abstract.valid_handle_ (Abstract.unset_handle b s).2 s = false.
Proof.
  intros Hlive. rewrite (unset_handle_live _ _ Hlive).
  unfold Abstract.valid_handle_, HandleMgr.valid_handle. cbn. apply N.clearbit_eq.
Qed.

Lemma delete_entry_releases m (h : N) m' :
  delete_entry m h = Returned (SUCCESS, m') →
  Abstract.valid_handle_ (base m') (HANDLE_INTERNAL h) = false.
Proof.
  destruct m as [u|u|u]; cbn [delete_entry].
  - unfold Exact.delete_entry. handle_check Hlive Hver; try done.
    pose proof (unset_handle_dead _ _ Hlive) as Hd.
    destruct (Abstract.unset_handle _ _) as [st b]. intros [= _ <-]. exact Hd.
  - unfold LPM.delete_entry. handle_check Hlive Hver; try done.
    destruct (LPMTrie.delete_prefix _ _ _) as [trie'|]; [|done].
    pose proof (unset_handle_dead _ _ Hlive) as Hd.
    destruct (Abstract.unset_handle _ _) as [st b]. intros [= _ <-]. exact Hd.
  - unfold Ternary.delete_entry. handle_check Hlive Hver; try done.
    pose proof (unset_handle_dead _ _ Hlive) as Hd.
    destruct (Abstract.unset_handle _ _) as [st b]. intros [= _ <-]. exact Hd.
Qed.

Lemma dead_slot_invalid m (h : N) :
  Abstract.valid_handle_ (base m) (HANDLE_INTERNAL h) = false →
  get_value m h = (INVALID_HANDLE, m, None) ∧
  (∀ v, modify_entry m h v = (INVALID_HANDLE, m)) ∧
  delete_entry m h = Returned (INVALID_HANDLE, m).
Proof.
  destruct m as [u|u|u]; cbn [base get_value modify_entry delete_entry]; intros Hdead.
  - unfold Exact.get_value, Exact.modify_entry, Exact.delete_entry.
    rewrite valid_handle_decoded. by rewrite Hdead.
  - unfold LPM.get_value, LPM.modify_entry, LPM.delete_entry. by rewrite Hdead.
  - unfold Ternary.get_value, Ternary.modify_entry, Ternary.delete_entry.
    rewrite valid_handle_decoded. by rewrite Hdead.
Qed.

(** Right after [delete_entry(h)] has succeeded, and until the slot is
    taken again, the handle is reported as [INVALID_HANDLE] (not as
    [EXPIRED_HANDLE]) by the three operations, and [valid_handle(h)] is
    false. *)
Theorem deleted_handle_invalid m (h : N) m' :
  delete_entry m h = Returned (SUCCESS, m') →
  valid_handle m' h = false ∧
  get_value m' h = (INVALID_HANDLE, m', None) ∧
  (∀ v, modify_entry m' h v = (INVALID_HANDLE, m')) ∧
  delete_entry m' h = Returned (INVALID_HANDLE, m').
Proof.
  intros Hdel. apply delete_entry_releases in Hdel.
  split; [done|]. by apply dead_slot_invalid.
Qed.
End after_delete.

Section after_delete_examples.
Import MatchKeyParam MatchUnit Scenario.

Lemma deleted_handle_invalid_witness :
  ∃ m m',
    exact3 = Returned m ∧
    delete_entry m 1 = Returned (SUCCESS, m') ∧
    get_value m' 1 = (INVALID_HANDLE, m', None).
Proof.
  eexists _, _. split; [by vm_compute|].
  match goal with |- ?P ∧ _ => assert (Hdel : P) by by vm_compute end.
  split; [exact Hdel|]. exact (proj1 (proj2 (deleted_handle_invalid _ 1 _ Hdel))).
Defined.
End after_delete_examples.

(** ** [num_entries] and the table-full test *)

Lemma live_free_count (hm : HandleMgr.t) :
  HandleMgr.wf hm →
  (length (HandleMgr.iter hm) + length (HandleMgr.free_list hm))%nat
  = N.to_nat (HandleMgr.capacity hm).
Proof.
  intros (Hnd & Hfree & _). unfold HandleMgr.iter.
  assert (Hperm : HandleMgr.free_list hm ≡ₚ
            filter (λ s, ¬ (HandleMgr.valid_handle hm s = true))
                   (HandleMgr.slots (HandleMgr.capacity hm))).
  { apply NoDup_Permutation; [done|apply NoDup_filter, NoDup_slots|].
    intros s. rewrite Hfree, list_elem_of_filter, elem_of_slots, not_true_iff_false.
    naive_solver. }
  rewrite Hperm, <- length_app, filter_app_complement. apply length_slots.
Qed.

Section counting.
Context {V : Type} `{!Inhabited V}.
Import MatchUnit.

Implicit Types (m : MatchUnit.t V) (c : call V).

Lemma counted_new_exact (size nbytes_key : N) :
  size < 2 ^ 64 → counted (new_exact (V:=V) size nbytes_key).
Proof. intros Hs. split; [done|]. cbn. rewrite length_slots. lia. Qed.

Lemma counted_new_lpm (size nbytes_key : N) :
  size < 2 ^ 64 → counted (new_lpm (V:=V) size nbytes_key).
Proof. intros Hs. split; [done|]. cbn. rewrite length_slots. lia. Qed.

Lemma counted_new_ternary (size nbytes_key : N) :
  size < 2 ^ 64 → counted (new_ternary (V:=V) size nbytes_key).
Proof. intros Hs. split; [done|]. cbn. rewrite length_slots. lia. Qed.

Lemma counted_step m c status m' :
  wf m → counted m → step m c = Returned (status, m') → counted m'.
Proof.
  intros (Hhm & Hcap & Hlen) [Hsize Hnum] Hstep. apply step_base in Hstep as [_ Hb].
  unfold counted. change (2 ^ 64) with 18446744073709551616 in *.
  destruct Hb as [->|[(s & Hget)|(s & Hlive & Hun)]]; [done|..].
  - apply get_and_set_handle_success in Hget as (Hfull & Hget & -> & _ & ->).
    apply get_handle_spec in Hget as (_ & _ & Hfl & _); [|done].
    rewrite Hfl in Hnum. cbn [length] in Hnum. split; [done|].
    unfold wrap64. change (2 ^ 64) with 18446744073709551616.
    rewrite N.mod_small; lia.
  - pose proof (free_list_short _ _ Hhm Hlive) as Hshort.
    rewrite (unset_handle_live _ _ Hlive) in Hun. injection Hun as <-.
    cbn [Abstract.size Abstract.num_entries Abstract.handles HandleMgr.free_list length].
    split; [done|]. unfold wrap64. change (2 ^ 64) with 18446744073709551616.
    replace (Abstract.num_entries (base m) + (18446744073709551616 - 1))
      with (Abstract.num_entries (base m) - 1 + 1 * 18446744073709551616) by lia.
    rewrite N.Div0.mod_add, N.mod_small; lia.
Qed.

Lemma counted_run m calls m' :
  wf m → counted m → run m calls = Returned m' → wf m' ∧ counted m'.
Proof.
  revert m. induction calls as [|c rest IH]; intros m Hwf Hcnt; cbn [run].
  - by intros [= <-].
  - destruct (step m c) as [[st m1]|] eqn:Hstep; [|done].
    apply IH; [by eapply wf_step|by eapply counted_step].
Qed.

(** In every state that a run of calls reaches from a consistent one
    (a new unit, for instance), [num_entries] is the number of live slots
    and does not exceed [size]. *)
Theorem num_entries_counts_live m calls m' :
  wf m → counted m → run m calls = Returned m' →
  Abstract.num_entries (base m') = live_count m' ∧
  Abstract.num_entries (base m') ≤ Abstract.size (base m').
Proof.
  intros Hwf Hcnt Hrun.
  destruct (counted_run _ _ _ Hwf Hcnt Hrun) as [(Hhm & Hcap & _) [_ Hnum]].
  pose proof (live_free_count _ Hhm) as Hlf. unfold live_count. lia.
Qed.

(** The allocator never refuses a slot while the table is not full. *)
Lemma get_and_set_handle_not_full (b : Abstract.t) :
  Abstract.num_entries b + N.of_nat (length (HandleMgr.free_list (Abstract.handles b)))
    = Abstract.size b →
  Abstract.num_entries b < Abstract.size b →
  ∃ b' s, Abstract.get_and_set_handle b = inr (b', s).
Proof.
  intros Hnum Hlt. unfold Abstract.get_and_set_handle, HandleMgr.get_handle.
  destruct (N.leb_spec (Abstract.size b) (Abstract.num_entries b)); [lia|].
  destruct (HandleMgr.free_list (Abstract.handles b)); [cbn in Hnum; lia|eauto].
Qed.

(** In a consistent state, for parameters from which the key is built
    without a failed assertion, [add_entry] returns [SUCCESS] and writes a
    handle when [num_entries < size], and returns [TABLE_FULL] without
    changing the state otherwise; it does not return [ERROR]. *)
Theorem add_entry_full_or_success m match_key (v : V) priority (k : ByteContainer) :
  counted m → build_new_key m match_key = Returned k →
  if decide (Abstract.num_entries (base m) < Abstract.size (base m))
  then ∃ m' h, add_entry m match_key v priority = Returned (SUCCESS, m', Some h)
  else add_entry m match_key v priority = Returned (TABLE_FULL, m, None).
Proof.
  intros [_ Hnum] Hk. case_decide as Hfull.
  - destruct (get_and_set_handle_not_full _ Hnum Hfull) as (b' & s & Hget).
    destruct m as [u|u|u]; cbn [add_entry build_new_key base] in *.
    + unfold Exact.add_entry. rewrite Hk, Hget. eauto.
    + unfold LPM.add_entry. destruct (LPM.build_new_key u match_key) as [[k' p]|]; [|done].
      rewrite Hget. eauto.
    + unfold Ternary.add_entry.
      destruct (Ternary.build_new_key u match_key) as [[k' msk]|]; [|done].
      rewrite Hget. eauto.
  - assert (Hget : Abstract.get_and_set_handle (base m) = inl TABLE_FULL).
    { unfold Abstract.get_and_set_handle.
      destruct (N.leb_spec (Abstract.size (base m)) (Abstract.num_entries (base m)));
        [done|lia]. }
    destruct m as [u|u|u]; cbn [add_entry build_new_key base] in *.
    + unfold Exact.add_entry. by rewrite Hk, Hget.
    + unfold LPM.add_entry. destruct (LPM.build_new_key u match_key) as [[k' p]|]; [|done].
      by rewrite Hget.
    + unfold Ternary.add_entry.
      destruct (Ternary.build_new_key u match_key) as [[k' msk]|]; [|done].
      by rewrite Hget.
Qed.
End counting.

Section counting_examples.
Import MatchKeyParam MatchUnit Scenario.

Lemma num_entries_counts_live_witness :
  ∃ m,
    wf (new_exact (V:=N) 3 2) ∧ counted (new_exact (V:=N) 3 2) ∧
    exact3 = Returned m ∧
    Abstract.num_entries (base m) = live_count m ∧
    Abstract.num_entries (base m) = 3.
Proof.
  eexists. split; [apply wf_new_exact|]. split; [by apply counted_new_exact|].
  split; [by vm_compute|]. split; [|by vm_compute].
  refine (proj1 (num_entries_counts_live (new_exact 3 2)
            [AddEntry key_a 7 0%Z; AddEntry key_b 8 0%Z; AddEntry key_c 9 0%Z] _ _ _ _));
    [apply wf_new_exact|by apply counted_new_exact|by vm_compute].
Defined.

(** The fourth insertion into the full table of capacity 3. *)
Lemma add_entry_full_or_success_witness :
  ∃ m,
    exact3 = Returned m ∧
    build_new_key m key_a = Returned [0xAB; 0xCD] ∧
    add_entry m key_a 10 0 = Returned (TABLE_FULL, m, None).
Proof.
  eexists. split; [by vm_compute|]. split; [by vm_compute|].
  match goal with |- add_entry ?m _ _ _ = _ =>
    assert (Hcnt : counted m);
    [ apply (counted_run (new_exact 3 2)
               [AddEntry key_a 7 0%Z; AddEntry key_b 8 0%Z; AddEntry key_c 9 0%Z]);
      [apply wf_new_exact|by apply counted_new_exact|by vm_compute]
    | pose proof (add_entry_full_or_success m key_a 10 0%Z [0xAB; 0xCD] Hcnt) as Hadd ]
  end.
  apply Hadd. by vm_compute.
Defined.
End counting_examples.

(** ** MatchUnitExact: what lookups observe *)

Section exact_observations.
Context {V : Type} `{!Inhabited V}.
Import Exact.

Implicit Types (u : Exact.t V) (v : V) (k : ByteContainer).

(** In every state that an exact unit reaches from a new one, a lookup
    that hits returns a live slot whose entry holds the key looked up,
    with the value of that entry. *)
Theorem exact_lookup_key_sound (size nbytes_key : N) (calls : list (MatchUnit.call V)) u k
    (s : N) v :
  size ≤ 2 ^ 32 →
  MatchUnit.run (MatchUnit.new_exact size nbytes_key) calls = Returned (MatchUnit.OfExact u) →
  lookup_key u k = Some (s, v) →
  Abstract.valid_handle_ (base u) s = true ∧
  key (entries u !!! N.to_nat s) = k ∧ v = value (entries u !!! N.to_nat s).
Proof.
  intros Hsize Hrun Hlook.
  apply exact_wf_run in Hrun as (u' & [= <-] & Hwf); [|by apply exact_wf_new].
  destruct Hwf as (_ & _ & _ & _ & _ & Hmap). unfold lookup_key in Hlook.
  destruct (entries_map u !! k) as [s'|] eqn:Hs; [|done]. injection Hlook as -> <-.
  by apply Hmap in Hs as [? ?].
Qed.

(** After a successful [delete_entry] the key of the deleted entry is
    not found any more, and the lookup of every other key gives what it
    gave before. *)
Theorem exact_lookup_after_delete_entry u (h : N) u' :
  delete_entry u h = (SUCCESS, u') →
  lookup_key u' (key (entries u !!! N.to_nat (HANDLE_INTERNAL h))) = None ∧
  ∀ k, k ≠ key (entries u !!! N.to_nat (HANDLE_INTERNAL h)) →
       lookup_key u' k = lookup_key u k.
Proof.
  intros Hdel.
  destruct (exact_delete_entry_cases u h) as [[_ Heq]|[(_ & _ & Heq)|(Hlive & _ & Heq)]];
    rewrite Heq in Hdel; try done.
  injection Hdel as <-. unfold lookup_key. cbn [entries entries_map key]. split.
  - by rewrite lookup_delete_eq.
  - intros k Hk. rewrite lookup_delete_ne by done.
    destruct (entries_map u !! k) as [s|]; [|done]. do 2 f_equal.
    set (e := mkEntry _ _ _).
    by destruct (lookup_total_insert_cases (entries u) (N.to_nat (HANDLE_INTERNAL h))
                   (N.to_nat s) e) as [->|(<- & _ & ->)].
Qed.

(** After a successful [modify_entry(h, v)] in a consistent state every
    lookup returns the slot it returned before, with the value [v] for the
    slot of the modified entry and the old value for any other. *)
Theorem exact_lookup_after_modify_entry u (h : N) v u' k :
  wf u → modify_entry u h v = (SUCCESS, u') →
  lookup_key u' k =
  (λ r, (r.1, if decide (r.1 = HANDLE_INTERNAL h) then v else r.2)) <$> lookup_key u k.
Proof.
  intros Hwf. unfold modify_entry. handle_check Hlive Hver; try done.
  intros [= <-]. unfold lookup_key. cbn [entries entries_map].
  destruct (entries_map u !! k) as [s|]; [|done]. cbn. do 2 f_equal.
  case_decide as Hs.
  - subst s. destruct (exact_wf_in_range _ _ Hwf Hlive) as [Hlt _].
    by rewrite list_lookup_total_insert_eq.
  - rewrite list_lookup_total_insert_ne; [done|lia].
Qed.

(** A successful [add_entry] in a consistent state changes the lookup of
    no key other than the one it inserts. *)
Theorem exact_lookup_other_key_after_add_entry u match_key v priority u' (h : N) k :
  wf u → add_entry u match_key v priority = Returned (SUCCESS, u', Some h) →
  k ≠ canonical_key match_key →
  lookup_key u' k = lookup_key u k.
Proof.
  intros Hwf Hadd Hk.
  destruct (exact_add_entry_effects _ _ _ _ _ _ Hwf Hadd)
    as (_ & _ & Hdead & _ & _ & _ & Hentries & Hmap).
  destruct Hwf as (_ & _ & _ & _ & _ & Hinv).
  unfold lookup_key. rewrite Hmap, lookup_insert_ne by done.
  destruct (entries_map u !! k) as [s|] eqn:Hs; [|done].
  apply Hinv in Hs as [Hlive _]. rewrite Hentries.
  rewrite list_lookup_total_insert_ne; [done|].
  intros Heq. apply N2Nat.inj in Heq. congruence.
Qed.
End exact_observations.

Section exact_observations_examples.
Import MatchKeyParam MatchUnit Scenario.

Lemma exact_lookup_key_sound_witness :
  ∃ u,
    3 ≤ 2 ^ 32 ∧
    run (new_exact 3 2) [AddEntry key_a 7 0; AddEntry key_b 8 0; AddEntry key_c 9 0]
      = Returned (OfExact u) ∧
    Exact.lookup_key u [0xAB; 0xCE] = Some (1, 8) ∧
    Abstract.valid_handle_ (Exact.base u) 1 = true.
Proof.
  eexists. split; [by vm_compute|]. split; [by vm_compute|]. split; [by vm_compute|].
  refine (proj1 (exact_lookup_key_sound 3 2
            [AddEntry key_a 7 0%Z; AddEntry key_b 8 0%Z; AddEntry key_c 9 0%Z]
            _ [0xAB; 0xCE] 1 8 _ _ _)); by vm_compute.
Defined.

Lemma exact_lookup_after_delete_entry_witness :
  ∃ u u',
    exact3 = Returned (OfExact u) ∧
    Exact.delete_entry u 1 = (SUCCESS, u') ∧
    Exact.lookup_key u' [0xAB; 0xCE] = None.
Proof.
  eexists _, _. split; [by vm_compute|].
  match goal with |- ?P ∧ _ => assert (Hdel : P) by by vm_compute end.
  split; [exact Hdel|]. exact (proj1 (exact_lookup_after_delete_entry _ 1 _ Hdel)).
Defined.

Lemma exact_lookup_after_modify_entry_witness :
  ∃ u u',
    exact_one = Returned (OfExact u) ∧ Exact.wf u ∧
    Exact.modify_entry u 0 42 = (SUCCESS, u') ∧
    Exact.lookup_key u' [0xAB; 0xCD] = Some (0, 42).
Proof.
  destruct exact_one_wf as (u & Hu & Hwf). exists u.
  vm_compute in Hu. injection Hu as <-.
  eexists. split; [by vm_compute|]. split; [done|].
  match goal with |- ?P ∧ _ => assert (Hmod : P) by by vm_compute end.
  split; [exact Hmod|].
  rewrite (exact_lookup_after_modify_entry _ 0 42 _ [0xAB; 0xCD] Hwf Hmod). by vm_compute.
Defined.

Lemma exact_lookup_other_key_after_add_entry_witness :
  ∃ u u' h,
    exact_one = Returned (OfExact u) ∧ Exact.wf u ∧
    Exact.add_entry u key_b 8 0 = Returned (SUCCESS, u', Some h) ∧
    [0xAB; 0xCD] ≠ canonical_key key_b ∧
    Exact.lookup_key u' [0xAB; 0xCD] = Exact.lookup_key u [0xAB; 0xCD].
Proof.
  destruct exact_one_wf as (u & Hu & Hwf). exists u.
  vm_compute in Hu. injection Hu as <-.
  eexists _, _. split; [by vm_compute|]. split; [done|].
  match goal with |- ?P ∧ _ => assert (Hadd : P) by by vm_compute end.
  split; [exact Hadd|]. split; [by vm_compute|].
  apply (exact_lookup_other_key_after_add_entry _ key_b 8 0%Z _ _ _ Hwf Hadd).
  by vm_compute.
Defined.
End exact_observations_examples.

(** ** The handle written by [add_entry] *)

Lemma lookup_total_replicate_inhabitant {A : Type} `{!Inhabited A} (n i : nat) :
  replicate n (inhabitant : A) !!! i = inhabitant.
Proof.
  rewrite list_lookup_total_alt.
  destruct (decide (i < n)%nat) as [Hlt|Hge].
  - by rewrite lookup_replicate_2.
  - assert (replicate n (inhabitant : A) !! i = None) as -> by (apply lookup_replicate_None; lia).
    done.
Qed.

Section written_handle.
Context {V : Type} `{!Inhabited V}.
Import MatchUnit.

Implicit Types (m : MatchUnit.t V) (c : call V) (s : N).

Lemma versions_bounded_new_exact (size nbytes_key : N) :
  versions_bounded (new_exact (V:=V) size nbytes_key).
Proof.
  intros s. unfold new_exact, Exact.new. cbn [version_at Exact.entries].
  rewrite lookup_total_replicate_inhabitant. by vm_compute.
Qed.

Lemma versions_bounded_new_lpm (size nbytes_key : N) :
  versions_bounded (new_lpm (V:=V) size nbytes_key).
Proof.
  intros s. unfold new_lpm, LPM.new. cbn [version_at LPM.entries].
  rewrite lookup_total_replicate_inhabitant. by vm_compute.
Qed.

Lemma versions_bounded_new_ternary (size nbytes_key : N) :
  versions_bounded (new_ternary (V:=V) size nbytes_key).
Proof.
  intros s. unfold new_ternary, Ternary.new. cbn [version_at Ternary.entries].
  rewrite lookup_total_replicate_inhabitant. by vm_compute.
Qed.

Lemma versions_bounded_step m c status m' :
  versions_bounded m → step m c = Returned (status, m') → versions_bounded m'.
Proof.
  intros Hb Hstep s. destruct (step_version _ _ _ _ s Hstep) as [->|[_ ->]]; [done|].
  unfold wrap32. by apply N.mod_lt.
Qed.

Lemma versions_bounded_run m calls m' :
  versions_bounded m → run m calls = Returned m' → versions_bounded m'.
Proof.
  revert m. induction calls as [|c rest IH]; intros m Hb; cbn [run].
  - by intros [= <-].
  - destruct (step m c) as [[st m1]|] eqn:Hstep; [|done].
    apply IH. by eapply versions_bounded_step.
Qed.

(** What a successful [add_entry] leaves in the slot it takes. *)
Lemma add_entry_slot m match_key (v : V) priority m' (h : N) :
  wf m → add_entry m match_key v priority = Returned (SUCCESS, m', Some h) →
  ∃ s, h = HANDLE_SET (version_at m s) s ∧
       s < Abstract.size (base m) ∧
       Abstract.valid_handle_ (base m) s = false ∧
       Abstract.valid_handle_ (base m') s = true ∧
       version_at m' s = version_at m s ∧ value_at m' s = v.
Proof.
  intros (Hhm & Hcap & Hlen).
  assert (Hslot : ∀ b s, Abstract.get_and_set_handle (base m) = inr (b, s) →
            s < Abstract.size (base m) ∧ (N.to_nat s < n_entries m)%nat ∧
            Abstract.valid_handle_ (base m) s = false ∧ Abstract.valid_handle_ b s = true).
  { intros b s Hget. apply get_and_set_handle_success in Hget as (_ & Hget & _).
    apply get_handle_spec in Hget as (_ & _ & _ & Hlt & Hdead & Hlive & _); [|done].
    unfold Abstract.valid_handle_. split_and!; try done; lia. }
  destruct m as [u|u|u]; cbn [add_entry base n_entries version_at] in *.
  - unfold Exact.add_entry. destruct (Exact.build_new_key u match_key); [|done].
    destruct (Abstract.get_and_set_handle _) as [st|[b s]] eqn:Hget; [by intros [= -> _ _]|].
    destruct (Hslot _ _ eq_refl) as (Hlt & Hin & Hdead & Hlive).
    intros [= <- <-]. exists s. cbn [base version_at value_at Exact.base Exact.entries].
    rewrite list_lookup_total_insert_eq by done. done.
  - unfold LPM.add_entry. destruct (LPM.build_new_key u match_key) as [[k p]|]; [|done].
    destruct (Abstract.get_and_set_handle _) as [st|[b s]] eqn:Hget; [by intros [= -> _ _]|].
    destruct (Hslot _ _ eq_refl) as (Hlt & Hin & Hdead & Hlive).
    intros [= <- <-]. exists s. cbn [base version_at value_at LPM.base LPM.entries].
    rewrite list_lookup_total_insert_eq by done. done.
  - unfold Ternary.add_entry.
    destruct (Ternary.build_new_key u match_key) as [[k msk]|]; [|done].
    destruct (Abstract.get_and_set_handle _) as [st|[b s]] eqn:Hget; [by intros [= -> _ _]|].
    destruct (Hslot _ _ eq_refl) as (Hlt & Hin & Hdead & Hlive).
    intros [= <- <-]. exists s. cbn [base version_at value_at Ternary.base Ternary.entries].
    rewrite list_lookup_total_insert_eq by done. done.
Qed.

(** A handle that passes the check reads the value of the decoded
    slot. *)
Lemma get_value_accepted m (h : N) :
  accepted m h → get_value m h = (SUCCESS, m, Some (value_at m (HANDLE_INTERNAL h))).
Proof.
  intros [Hlive Hver]. destruct m as [u|u|u]; cbn [get_value base version_at value_at] in *.
  - unfold Exact.get_value. rewrite valid_handle_decoded, Hlive, Hver, N.eqb_refl. done.
  - unfold LPM.get_value. rewrite Hlive, Hver, N.eqb_refl. done.
  - unfold Ternary.get_value. rewrite Hlive, Hver, N.eqb_refl. done.
Qed.

(** In a consistent state of a table of at most [2^32] slots, the handle
    written by a successful [add_entry] carries the slot taken in its low
    32 bits and the version stored in that slot in its high 32 bits; and
    when it is the handle 0 or a handle of slot 1 (the handles the macro
    decodes to their slot), [get_value] on it succeeds and reads the value
    just inserted. *)
Theorem add_entry_handle m match_key (v : V) priority m' (h : N) :
  wf m → versions_bounded m → Abstract.size (base m) ≤ 2 ^ 32 →
  add_entry m match_key v priority = Returned (SUCCESS, m', Some h) →
  Abstract.valid_handle_ (base m) (HANDLE_SLOT h) = false ∧
  Abstract.valid_handle_ (base m') (HANDLE_SLOT h) = true ∧
  HANDLE_VERSION h = version_at m' (HANDLE_SLOT h) ∧
  (HANDLE_INTERNAL h = HANDLE_SLOT h → get_value m' h = (SUCCESS, m', Some v)).
Proof.
  intros Hwf Hb Hsize Hadd.
  destruct (add_entry_slot _ _ _ _ _ _ Hwf Hadd) as (s & -> & Hlt & Hdead & Hlive & Hver & Hval).
  assert (Hs : s < 2 ^ 32) by lia.
  rewrite (HANDLE_SLOT_SET _ _ Hs), (HANDLE_VERSION_SET _ _ (Hb s) Hs).
  split_and!; try done.
  intros Hdec. rewrite get_value_accepted.
  - by rewrite Hdec, Hval.
  - unfold accepted. by rewrite Hdec, (HANDLE_VERSION_SET _ _ (Hb s) Hs).
Qed.
End written_handle.

Section written_handle_examples.
Import MatchKeyParam MatchUnit Scenario.

Lemma add_entry_handle_witness :
  ∃ m m' h,
    exact_one = Returned m ∧ wf m ∧ versions_bounded m ∧
    Abstract.size (base m) ≤ 2 ^ 32 ∧
    add_entry m key_b 8 0 = Returned (SUCCESS, m', Some h) ∧
    HANDLE_INTERNAL h = HANDLE_SLOT h ∧
    get_value m' h = (SUCCESS, m', Some 8).
Proof.
  eexists _, _, _. split; [by vm_compute|].
  match goal with |- wf ?m ∧ _ =>
    assert (Hwf : wf m)
      by (apply (wf_run (new_exact 2 2) [AddEntry key_a 7 0%Z]);
          [apply wf_new_exact|by vm_compute]);
    assert (Hb : versions_bounded m)
      by (apply (versions_bounded_run (new_exact 2 2) [AddEntry key_a 7 0%Z]);
          [apply versions_bounded_new_exact|by vm_compute])
  end.
  split; [exact Hwf|]. split; [exact Hb|]. split; [by vm_compute|].
  match goal with |- ?P ∧ _ => assert (Hadd : P) by by vm_compute end.
  split; [exact Hadd|]. split; [by vm_compute|].
  refine (proj2 (proj2 (proj2 (add_entry_handle _ key_b 8 0%Z _ _ Hwf Hb _ Hadd))) _);
    by vm_compute.
Defined.
End written_handle_examples.

(** ** When [add_entry] builds its key without a failed assertion *)

Section key_assertions.
Context {V : Type}.
Import MatchKeyParam.

Lemma exact_append_params_ok (match_key : list MatchKeyParam.t) (acc : ByteContainer) :
  Forall (λ p, type p = EXACT ∨ type p = VALID) match_key →
  Exact.append_params match_key acc
  = Returned (acc ++ mjoin (key <$> filter (λ p, type p ≠ VALID) match_key)).
Proof.
  intros Hall. revert acc. induction Hall as [|p rest [Hp|Hp] _ IH]; intros acc; simpl.
  - by rewrite app_nil_r.
  - rewrite Hp, IH. rewrite filter_cons_True by congruence. simpl. by rewrite app_assoc.
  - rewrite Hp, IH. rewrite filter_cons_False; [done|]. intros Hne. by apply Hne.
Qed.

(** The exact unit builds a key exactly for the parameter lists made of
    EXACT and VALID parameters whose key bytes add up to [nbytes_key]
    bytes; any other list fails an assertion of [add_entry]. *)
Theorem exact_build_new_key_iff (u : Exact.t V) (match_key : list MatchKeyParam.t)
    (k : ByteContainer) :
  Exact.build_new_key u match_key = Returned k
  ↔ Forall (λ p, type p = EXACT ∨ type p = VALID) match_key ∧
    k = canonical_key match_key ∧
    N.of_nat (length k) = Abstract.nbytes_key (Exact.base u).
Proof.
  split.
  - intros Hk. pose proof (exact_build_new_key_spec _ _ _ Hk) as [-> Hlen].
    split; [|done]. unfold Exact.build_new_key in Hk.
    destruct (Exact.append_params _ _) as [k'|] eqn:Hk'; [|done].
    by apply exact_append_params_spec in Hk' as [_ ?].
  - intros (Hall & -> & Hlen). unfold Exact.build_new_key.
    rewrite append_valid_spec, exact_append_params_ok by done. cbn [app].
    fold (canonical_key match_key). by rewrite Hlen, N.eqb_refl.
Qed.

Lemma lpm_append_params_types (match_key : list MatchKeyParam.t) (acc k : ByteContainer)
    (p0 p' : Z) (l0 l' : option MatchKeyParam.t) :
  LPM.append_params match_key acc p0 l0 = Returned (k, p', l') →
  Forall (λ p, type p ≠ TERNARY) match_key.
Proof.
  revert acc p0 l0. induction match_key as [|p rest IH]; intros acc p0 l0; simpl; [done|].
  destruct (type p) eqn:Hp; try done.
  - intros Hk. constructor; [congruence|by eapply IH].
  - destruct l0; [done|]. intros Hk. constructor; [congruence|by eapply IH].
  - intros Hk. constructor; [congruence|by eapply IH].
Qed.

Lemma lpm_append_params_ok (match_key : list MatchKeyParam.t) (acc : ByteContainer)
    (p0 : Z) (l0 : option MatchKeyParam.t) :
  Forall (λ p, type p ≠ TERNARY) match_key →
  match l0 with
  | Some _ => filter (λ p, type p = LPM) match_key = []
  | None => (length (filter (λ p, type p = LPM) match_key) ≤ 1)%nat
  end →
  ∃ p', LPM.append_params match_key acc p0 l0
        = Returned (acc ++ mjoin (key <$> filter (λ p, type p = EXACT) match_key), p',
                    match l0 with
                    | Some q0 => Some q0
                    | None => head (filter (λ p, type p = LPM) match_key)
                    end).
Proof.
  intros Hall. revert acc p0 l0.
  induction Hall as [|p rest Hp _ IH]; intros acc p0 l0 Hl; simpl.
  - exists p0. rewrite app_nil_r. by destruct l0.
  - destruct (type p) eqn:Hty; try done.
    + rewrite filter_cons_True by done. rewrite (filter_cons_False _ p) in * by congruence.
      destruct (IH (acc ++ key p) (to_int (p0 + Z.of_nat (length (key p)))) l0 Hl) as [p' ->].
      exists p'. simpl. by rewrite app_assoc.
    + rewrite (filter_cons_False _ p) by congruence.
      rewrite filter_cons_True in Hl by done. destruct l0 as [q0|]; [done|].
      rewrite filter_cons_True by done. cbn [length head] in *.
      destruct (IH acc p0 (Some p)) as [p' ->]; [|by exists p'].
      destruct (filter _ rest); [done|cbn in Hl; lia].
    + rewrite !(filter_cons_False _ p) in * by congruence. by apply IH.
Qed.

(** The LPM unit builds a key exactly for the parameter lists without a
    TERNARY parameter and with one LPM parameter whose bytes, VALID first
    and LPM last, add up to [nbytes_key] bytes; any other list fails an
    assertion of [add_entry]. *)
Theorem lpm_build_new_key_iff (u : LPM.t V) (match_key : list MatchKeyParam.t)
    (k : ByteContainer) :
  (∃ p, LPM.build_new_key u match_key = Returned (k, p))
  ↔ Forall (λ p, type p ≠ TERNARY) match_key ∧
    (∃ q, filter (λ p, type p = LPM) match_key = [q]) ∧
    k = lpm_canonical_key match_key ∧
    N.of_nat (length k) = Abstract.nbytes_key (LPM.base u).
Proof.
  split.
  - intros [p Hk]. pose proof (lpm_build_new_key_spec _ _ _ _ Hk) as ->.
    unfold LPM.build_new_key in Hk. rewrite append_valid_spec in Hk. cbn [app] in Hk.
    destruct (LPM.append_params _ _ _ _) as [[[k1 p1] [q|]]|] eqn:Hk1; try done.
    pose proof (lpm_append_params_types _ _ _ _ _ _ _ Hk1) as Hall.
    apply lpm_append_params_spec in Hk1 as [-> Hl].
    split; [done|]. split; [by exists q|]. split; [done|].
    destruct (N.eqb_spec (N.of_nat (length ((valid_bytes match_key ++
        mjoin (key <$> filter (λ p, type p = EXACT) match_key)) ++ key q)))
      (Abstract.nbytes_key (LPM.base u))) as [Hlen|]; [|done].
    unfold lpm_canonical_key. rewrite Hl. cbn. by rewrite app_nil_r, app_assoc.
  - intros (Hall & [q Hq] & -> & Hlen). unfold LPM.build_new_key.
    rewrite append_valid_spec. cbn [app].
    destruct (lpm_append_params_ok match_key (valid_bytes match_key) 0 None Hall) as [p' ->].
    { by rewrite Hq. }
    rewrite Hq. cbn [head].
    assert (Heq : (valid_bytes match_key ++
              mjoin (key <$> filter (λ p, type p = EXACT) match_key)) ++ key q
            = lpm_canonical_key match_key).
    { unfold lpm_canonical_key. rewrite Hq. cbn. by rewrite app_nil_r, app_assoc. }
    rewrite Heq, Hlen, N.eqb_refl. eauto.
Qed.
End key_assertions.

(** ** Masks of the ternary unit *)

Lemma create_mask_length (prefix_length : Z) (size : nat) :
  length (create_mask_from_pref_len prefix_length size) = size.
Proof.
  unfold create_mask_from_pref_len. case_decide; rewrite ?length_insert;
    rewrite length_app, !length_replicate; lia.
Qed.

(** The last byte of a mask: the [r] high bits of [0xFF << (8 - r)]. *)
Lemma partial_mask_byte_bits (r b : nat) :
  (1 ≤ r ≤ 7)%nat → (b ≤ 7)%nat →
  N.testbit (N.land (N.shiftl 0xFF (N.of_nat (8 - r))) 0xff) (N.of_nat b)
  = bool_decide (8 - r ≤ b)%nat.
Proof.
  intros Hr Hb.
  do 8 (destruct r as [|r]; [try lia;
    do 8 (destruct b as [|b]; [by vm_compute|]); lia|]).
  lia.
Qed.

(** [create_mask_from_pref_len] sets exactly the [prefix_length] high-order
    bits of a mask of [size] bytes. *)
Theorem create_mask_bits (prefix_length : Z) (size i : nat) :
  (0 ≤ prefix_length ≤ 8 * Z.of_nat size)%Z → (i < 8 * size)%nat →
  bit_at (create_mask_from_pref_len prefix_length size) i
  = bool_decide (Z.of_nat i < prefix_length)%Z.
Proof.
  intros Hp Hi. unfold bit_at, create_mask_from_pref_len.
  pose proof (Z.quot_rem' prefix_length 8) as Hqr.
  pose proof (Z.rem_bound_pos prefix_length 8 ltac:(lia) ltac:(lia)) as Hr.
  pose proof (Z.quot_pos prefix_length 8 ltac:(lia) ltac:(lia)) as Hq.
  pose proof (Nat.div_mod_eq i 8) as Hdm.
  pose proof (Nat.mod_upper_bound i 8 ltac:(lia)) as Hm.
  set (q := Z.to_nat (Z.quot prefix_length 8)) in *.
  set (r := Z.rem prefix_length 8) in *.
  set (j := (i / 8)%nat) in *. set (b := (i mod 8)%nat) in *.
  assert (Hqz : Z.of_nat q = Z.quot prefix_length 8) by (unfold q; lia).
  assert (Hqs : (q ≤ size)%nat) by lia.
  replace (q `min` size)%nat with q by lia.
  assert (Hbase : (replicate q 0xff ++ replicate (size - q) 0 : ByteContainer) !!! j
                  = if decide (j < q)%nat then 0xff else 0).
  { case_decide.
    - rewrite lookup_total_app_l by (rewrite length_replicate; lia).
      by rewrite lookup_total_replicate_2.
    - rewrite lookup_total_app_r by (rewrite length_replicate; lia).
      rewrite length_replicate. rewrite lookup_total_replicate_2; [done|lia]. }
  assert (Hff : N.testbit 0xff (N.of_nat (7 - b)) = true).
  { assert (7 - b ≤ 7)%nat as Hb7 by lia. revert Hb7. generalize (7 - b)%nat. intros n Hn.
    do 8 (destruct n as [|n]; [by vm_compute|]). lia. }
  destruct (decide (r = 0%Z)) as [Hr0|Hr0].
  - rewrite Hbase. destruct (decide (j < q)%nat).
    + rewrite Hff. symmetry. apply bool_decide_eq_true. lia.
    + rewrite N.bits_0. symmetry. apply bool_decide_eq_false. lia.
  - destruct (decide (j = q)) as [Hjq|Hjq].
    + rewrite Hjq. rewrite list_lookup_total_insert_eq
        by (rewrite length_app, !length_replicate; lia).
      replace (Z.to_N (8 - r)) with (N.of_nat (8 - Z.to_nat r)) by lia.
      rewrite partial_mask_byte_bits by lia.
      apply bool_decide_ext. lia.
    + rewrite list_lookup_total_insert_ne by done. rewrite Hbase.
      destruct (decide (j < q)%nat).
      * rewrite Hff. symmetry. apply bool_decide_eq_true. lia.
      * rewrite N.bits_0. symmetry. apply bool_decide_eq_false. lia.
Qed.

Lemma create_mask_bits_witness :
  (0 ≤ 12 ≤ 8 * Z.of_nat 2)%Z ∧ (11 < 8 * 2)%nat ∧
  create_mask_from_pref_len 12 2 = [0xFF; 0xF0] ∧
  bit_at (create_mask_from_pref_len 12 2) 11 = bool_decide (Z.of_nat 11 < 12)%Z.
Proof.
  split; [lia|]. split; [lia|]. split; [by vm_compute|].
  apply create_mask_bits; lia.
Defined.

(** ** MatchUnitTernary: insertion and matching *)

Section ternary_insertion.
Context {V : Type} `{!Inhabited V}.
Import MatchKeyParam.

Implicit Types (u : Ternary.t V) (k : ByteContainer) (s : N).

Lemma ternary_append_valid_mask_lengths (match_key : list MatchKeyParam.t)
    (acc accm : ByteContainer) :
  Forall ternary_param_ok match_key → length accm = length acc →
  length (Ternary.append_valid_mask match_key acc accm).2
  = length (Ternary.append_valid_mask match_key acc accm).1.
Proof.
  intros Hall. revert acc accm.
  induction Hall as [|p rest Hp _ IH]; intros acc accm Hlen; simpl; [done|].
  unfold ternary_param_ok in Hp.
  destruct (type p); try by apply IH.
  apply IH. rewrite !length_app, Hp, Hlen. done.
Qed.

Lemma ternary_append_params_lengths (match_key : list MatchKeyParam.t)
    (acc accm : ByteContainer) :
  Forall ternary_param_ok match_key → length accm = length acc →
  length (Ternary.append_params match_key acc accm).2
  = length (Ternary.append_params match_key acc accm).1.
Proof.
  intros Hall. revert acc accm.
  induction Hall as [|p rest Hp _ IH]; intros acc accm Hlen; simpl; [done|].
  unfold ternary_param_ok in Hp.
  destruct (type p); apply IH; rewrite ?length_app, ?length_replicate, ?create_mask_length;
    lia.
Qed.

(** For a parameter list with one key byte per VALID parameter, a mask as
    long as the key for every TERNARY parameter and a prefix length within
    the key for every LPM parameter, whose key bytes add up to
    [nbytes_key], [add_entry] of the ternary unit builds the key (VALID
    bytes first) and a mask of the same length without a failed
    assertion. *)
Theorem ternary_build_new_key_ok u (match_key : list MatchKeyParam.t) :
  Forall ternary_param_ok match_key →
  N.of_nat (length (canonical_key match_key)) = Abstract.nbytes_key (Ternary.base u) →
  ∃ msk, Ternary.build_new_key u match_key = Returned (canonical_key match_key, msk) ∧
         length msk = length (canonical_key match_key).
Proof.
  intros Hall Hlen. unfold Ternary.build_new_key.
  pose proof (ternary_append_valid_mask_fst match_key [] []) as Hk1.
  pose proof (ternary_append_valid_mask_lengths match_key [] [] Hall eq_refl) as Hl1.
  destruct (Ternary.append_valid_mask match_key [] []) as [k1 m1]. cbn [fst snd app] in *.
  pose proof (ternary_append_params_fst match_key k1 m1) as Hk2.
  pose proof (ternary_append_params_lengths match_key k1 m1 Hall Hl1) as Hl2.
  destruct (Ternary.append_params match_key k1 m1) as [k2 m2]. cbn [fst snd] in *.
  assert (k2 = canonical_key match_key) as -> by (unfold canonical_key; congruence).
  rewrite Hl2, Hlen, N.eqb_refl. eauto.
Qed.

(** The stored key is compared unmasked: an entry whose key has a bit
    outside its mask, at a byte index below [nbytes_key], matches no key
    and is never returned by [lookup_key]. *)
Theorem ternary_key_outside_mask u s (i : nat) k :
  N.of_nat i < Abstract.nbytes_key (Ternary.base u) →
  N.land (Ternary.key (Ternary.entries u !!! N.to_nat s) !!! i)
         (Ternary.mask (Ternary.entries u !!! N.to_nat s) !!! i)
  ≠ Ternary.key (Ternary.entries u !!! N.to_nat s) !!! i →
  ¬ Ternary.matches u s k ∧ ∀ v, Ternary.lookup_key u k ≠ Some (s, v).
Proof.
  intros Hi Hout.
  assert (Hno : ¬ Ternary.matches u s k).
  { intros Hm. apply Hout. rewrite (Hm i Hi) at 1.
    rewrite <- N.land_assoc, N.land_diag. symmetry. by apply Hm. }
  split; [done|]. intros v. unfold Ternary.lookup_key.
  destruct (scan_spec u k (HandleMgr.iter (Abstract.handles (Ternary.base u))) 0 None)
    as [[-> _]|(l1 & s' & l2 & _ & -> & Hm & _)]; [done|].
  intros [= -> _]. done.
Qed.

(** After a successful [add_entry] with a priority above 0 in a
    consistent state, every key that the new entry matches is found:
    [lookup_key] returns an entry whose priority is at least the one of
    the new entry. *)
Theorem ternary_lookup_after_add_entry u (match_key : list MatchKeyParam.t) (v : V)
    (priority : Z) u' (h : N) (new_key new_mask k : ByteContainer) :
  MatchUnit.wf (MatchUnit.OfTernary u) →
  Ternary.build_new_key u match_key = Returned (new_key, new_mask) →
  Ternary.add_entry u match_key v priority = Returned (SUCCESS, u', Some h) →
  (0 < priority)%Z →
  (∀ i : nat, N.of_nat i < Abstract.nbytes_key (Ternary.base u) →
              new_key !!! i = N.land (k !!! i) (new_mask !!! i)) →
  ∃ s v', Ternary.lookup_key u' k = Some (s, v') ∧ (priority ≤ Ternary.priority_at u' s)%Z.
Proof.
  intros (Hhm & Hcap & Hlen) Hk Hadd Hprio Hmatch. cbn [MatchUnit.base MatchUnit.n_entries] in *.
  unfold Ternary.add_entry in Hadd. rewrite Hk in Hadd.
  destruct (Abstract.get_and_set_handle _) as [st|[b s0]] eqn:Hget; [by injection Hadd|].
  injection Hadd as <- _.
  apply get_and_set_handle_success in Hget as (_ & Hget & Hsz & Hnb & _).
  apply get_handle_spec in Hget as (_ & Hcap' & _ & Hlt & _ & Hlive & _); [|done].
  set (e := Ternary.mkEntry new_key new_mask priority v _).
  set (u' := Ternary.mk b _).
  assert (He : Ternary.entries u' !!! N.to_nat s0 = e).
  { unfold u'. cbn [Ternary.entries]. apply list_lookup_total_insert_eq. lia. }
  assert (Hvis : s0 ∈ Ternary.visited u').
  { apply elem_of_visited. unfold Abstract.valid_handle_. cbn [Ternary.base u']. split; [done|lia]. }
  assert (Hm0 : Ternary.matches u' s0 k).
  { unfold Ternary.matches. rewrite He. cbn [Ternary.base u' Ternary.key Ternary.mask e].
    rewrite Hnb. exact Hmatch. }
  assert (Hp0 : Ternary.priority_at u' s0 = priority).
  { unfold Ternary.priority_at. by rewrite He. }
  unfold Ternary.lookup_key. fold (Ternary.visited u').
  destruct (scan_spec u' k (Ternary.visited u') 0 None)
    as [[_ Hall]|(l1 & s & l2 & Hsplit & -> & Hm & Hp & H1 & H2)].
  - specialize (Hall _ Hvis Hm0). lia.
  - exists s, (Ternary.value (Ternary.entries u' !!! N.to_nat s)). split; [done|].
    rewrite <- Hp0. rewrite Hsplit, elem_of_app, elem_of_cons in Hvis.
    destruct Hvis as [Hin|[->|Hin]]; [|done|by apply H2].
    specialize (H1 _ Hin Hm0). lia.
Qed.
End ternary_insertion.

Section ternary_insertion_examples.
Import MatchKeyParam MatchUnit Scenario.

Lemma ternary_build_new_key_ok_witness :
  Forall ternary_param_ok [ternary [0x12; 0x00] [0xFF; 0x00]] ∧
  N.of_nat (length (canonical_key [ternary [0x12; 0x00] [0xFF; 0x00]]))
    = Abstract.nbytes_key (Ternary.base (Ternary.new (V:=N) 2 2)) ∧
  ∃ msk, Ternary.build_new_key (Ternary.new (V:=N) 2 2) [ternary [0x12; 0x00] [0xFF; 0x00]]
           = Returned (canonical_key [ternary [0x12; 0x00] [0xFF; 0x00]], msk) ∧
         length msk = length (canonical_key [ternary [0x12; 0x00] [0xFF; 0x00]]).
Proof.
  assert (Hok : Forall ternary_param_ok [ternary [0x12; 0x00] [0xFF; 0x00]]).
  { constructor; [by vm_compute|constructor]. }
  split; [exact Hok|]. split; [by vm_compute|].
  apply (ternary_build_new_key_ok (Ternary.new (V:=N) 2 2) _ Hok). by vm_compute.
Defined.

(** An entry with key [0x12 0x34] under the mask [0xFF 0x00]: the second
    key byte lies outside the mask. *)
Lemma ternary_key_outside_mask_witness :
  ∃ u,
    run (new_ternary 2 2) [AddEntry [ternary [0x12; 0x34] [0xFF; 0x00]] 7 5]
      = Returned (OfTernary u) ∧
    N.of_nat 1 < Abstract.nbytes_key (Ternary.base u) ∧
    ¬ Ternary.matches u 0 [0x12; 0x34] ∧
    Ternary.lookup_key u [0x12; 0x34] = None.
Proof.
  eexists. split; [by vm_compute|]. split; [by vm_compute|]. split; [|by vm_compute].
  refine (proj1 (ternary_key_outside_mask _ 0 1 [0x12; 0x34] _ _)); by vm_compute.
Defined.

Lemma ternary_lookup_after_add_entry_witness :
  ∃ u' h s v',
    MatchUnit.wf (OfTernary (Ternary.new (V:=N) 2 2)) ∧
    Ternary.add_entry (Ternary.new 2 2) [ternary [0x12; 0x00] [0xFF; 0x00]] 7 5
      = Returned (SUCCESS, u', Some h) ∧
    Ternary.lookup_key u' [0x12; 0x34] = Some (s, v') ∧ (5 ≤ Ternary.priority_at u' s)%Z.
Proof.
  assert (Hwf : MatchUnit.wf (OfTernary (Ternary.new (V:=N) 2 2))) by apply wf_new_ternary.
  destruct (Ternary.add_entry (Ternary.new (V:=N) 2 2) [ternary [0x12; 0x00] [0xFF; 0x00]] 7 5)
    as [[[st u'] [h|]]|] eqn:Hadd; try by vm_compute in Hadd.
  assert (st = SUCCESS) as -> by (vm_compute in Hadd; congruence).
  destruct (ternary_lookup_after_add_entry _ [ternary [0x12; 0x00] [0xFF; 0x00]] 7 5%Z u' h
              [0x12; 0x00] [0xFF; 0x00] [0x12; 0x34] Hwf)
    as (s & v' & Hl & Hp); [by vm_compute|exact Hadd|lia| |].
  - intros i Hi. change (Abstract.nbytes_key _) with 2 in Hi.
    destruct i as [|[|i]]; [by vm_compute..|lia].
  - by exists u', h, s, v'.
Defined.
End ternary_insertion_examples.
